(** * Anchor-based alignment of OCR boxes with transcribed text

    A shallow embedding of [src/hybrid_aligner.py] (class [HybridAligner]):
    [get_structured_text], [_clean_text] and [align_text], and of the line
    splitting of [perform_ocr] in [src/ocr.py].

    Modelling choices.
    - Python [float] is IEEE 754 binary64; it is modelled by Rocq's primitive
      [float], so every arithmetic step and comparison is the one Python does.
    - Python [str] is modelled by [string]; the character classes used by
      [str.split], [str.strip], [str.lower] and [string.punctuation] are the
      ASCII ones.
    - Python exceptions ([ValueError], [OverflowError], [ZeroDivisionError])
      are modelled by [None] in an [option] result.
    - [rapidfuzz.fuzz.ratio] is a parameter ([scorer]) of the matcher; a
      concrete [fuzz_ratio] is supplied for closed examples. *)

From Stdlib Require Import ZArith List String Ascii Bool Lia Floats Sorted.
Import ListNotations.

#[local] Set Warnings "-inexact-float".
#[local] Open Scope string_scope.
#[local] Open Scope list_scope.

(** ** Python numbers *)

Module PyNum.

(** [max(a, b)]: the first argument unless the second is strictly greater. *)
Definition pymax (a b : float) : float := if PrimFloat.ltb a b then b else a.

(** [min(a, b)]: the first argument unless the second is strictly smaller. *)
Definition pymin (a b : float) : float := if PrimFloat.ltb b a then b else a.

(** [max(xs)] and [min(xs)] on a sequence; [None] is the [ValueError] raised
    on an empty one. *)
Definition max_list (xs : list float) : option float :=
  match xs with
  | [] => None
  | x :: rest => Some (fold_left pymax rest x)
  end.

Definition min_list (xs : list float) : option float :=
  match xs with
  | [] => None
  | x :: rest => Some (fold_left pymin rest x)
  end.

(** [float(n)] for a length or a pixel dimension. *)
Definition of_Z (z : Z) : float := PrimFloat.of_uint63 (Uint63.of_Z z).
Definition of_nat (n : nat) : float := of_Z (Z.of_nat n).

(** [int(round(x))]: round half to even on the exact value of [x];
    [None] is the exception raised on NaN and on the infinities. *)
Definition round_mantissa (m : Z) (e : Z) : Z :=
  if (0 <=? e)%Z then (m * 2 ^ e)%Z
  else
    let d := (2 ^ (- e))%Z in
    let q := (m / d)%Z in
    let r := (m mod d)%Z in
    if (2 * r <? d)%Z then q
    else if (d <? 2 * r)%Z then (q + 1)%Z
    else if Z.even q then q else (q + 1)%Z.

Definition py_round (x : float) : option Z :=
  match Prim2SF x with
  | S754_zero _ => Some 0%Z
  | S754_infinity _ => None
  | S754_nan => None
  | S754_finite s m e =>
      let v := round_mantissa (Zpos m) e in
      Some (if s then (- v)%Z else v)
  end.

End PyNum.

(** ** Python sequences *)

Module PySeq.

(** Normalisation of one slice bound against a length: negative bounds
    count from the end, and every bound is clamped into [0, len]. *)
Definition clamp (len : nat) (i : Z) : nat :=
  if (i <? 0)%Z then Z.to_nat (Z.max 0 (i + Z.of_nat len))
  else Nat.min len (Z.to_nat i).

(** [l[start:stop]] *)
Definition slice {A : Type} (l : list A) (start stop : Z) : list A :=
  let s := clamp (List.length l) start in
  let e := clamp (List.length l) stop in
  firstn (e - s) (skipn s l).

(** [l[start:]] *)
Definition slice_from {A : Type} (l : list A) (start : Z) : list A :=
  skipn (clamp (List.length l) start) l.

Definition is_nil {A : Type} (l : list A) : bool :=
  match l with [] => true | _ :: _ => false end.

End PySeq.

(** ** Python strings *)

Module PyStr.

(** The white space of [str.split()] and [str.strip()] below code 128:
    TAB, LF, VT, FF, CR, FS, GS, RS, US and SPACE. *)
Definition is_space (c : ascii) : bool :=
  let n := nat_of_ascii c in
  (((9 <=? n) && (n <=? 13)) || ((28 <=? n) && (n <=? 32)))%nat.

(** [string.punctuation] *)
Definition is_punct (c : ascii) : bool :=
  let n := nat_of_ascii c in
  (((33 <=? n) && (n <=? 47)) || ((58 <=? n) && (n <=? 64))
   || ((91 <=? n) && (n <=? 96)) || ((123 <=? n) && (n <=? 126)))%nat.

Definition lower_char (c : ascii) : ascii :=
  let n := nat_of_ascii c in
  if ((65 <=? n) && (n <=? 90))%nat then ascii_of_nat (n + 32) else c.

Fixpoint lower (s : string) : string :=
  match s with
  | EmptyString => EmptyString
  | String c s' => String (lower_char c) (lower s')
  end.

Definition is_empty (s : string) : bool :=
  match s with EmptyString => true | String _ _ => false end.

Fixpoint lstrip (s : string) : string :=
  match s with
  | EmptyString => EmptyString
  | String c s' => if is_space c then lstrip s' else s
  end.

Fixpoint rstrip (s : string) : string :=
  match s with
  | EmptyString => EmptyString
  | String c s' =>
      let r := rstrip s' in
      if is_space c && is_empty r then EmptyString else String c r
  end.

(** [s.strip()] *)
Definition strip (s : string) : string := rstrip (lstrip s).

(** [s.translate(str.maketrans('', '', string.punctuation))] *)
Fixpoint remove_punct (s : string) : string :=
  match s with
  | EmptyString => EmptyString
  | String c s' =>
      if is_punct c then remove_punct s' else String c (remove_punct s')
  end.

(** [sep.join(parts)] *)
Definition join (sep : string) (parts : list string) : string :=
  String.concat sep parts.

(** [s.split()]: the maximal runs of non-space characters, in order.
    [cur] is the run being read. *)
Fixpoint split_from (cur : string) (s : string) : list string :=
  match s with
  | EmptyString => if is_empty cur then [] else [cur]
  | String c s' =>
      if is_space c
      then (if is_empty cur then split_from EmptyString s'
            else cur :: split_from EmptyString s')
      else split_from (String.append cur (String c EmptyString)) s'
  end.

Definition split (s : string) : list string := split_from EmptyString s.

(** A word: a non-empty string without white space, what [split] yields. *)
Fixpoint no_space (s : string) : bool :=
  match s with
  | EmptyString => true
  | String c s' => negb (is_space c) && no_space s'
  end.

Definition is_word (s : string) : bool := negb (is_empty s) && no_space s.

End PyStr.

Import PyNum PySeq PyStr.

(** ** Data model *)

(** [[nx0, ny0, nx1, ny1]] *)
Record Rect : Type := mkRect { x0 : float; y0 : float; x1 : float; y1 : float }.

(** An element of [structured_data] and of the result: [(rect, text)]. *)
Definition Box : Type := (Rect * string)%type.

(** An entry of [matches].  The end sentinel has [text = None] and
    [rect = None]. *)
Record Anchor : Type := mkAnchor {
  box_idx : nat;
  llm_idx : nat;
  text : option string;
  rect : option Rect
}.

(** The [llm_text] argument: absent, one string, or a list of lines. *)
Inductive LlmText : Type :=
| LlmNone
| LlmStr (s : string)
| LlmLines (lines : list string).

(** [not llm_text] *)
Definition falsy (t : LlmText) : bool :=
  match t with
  | LlmNone => true
  | LlmStr s => is_empty s
  | LlmLines lines => is_nil lines
  end.

Definition full_text (t : LlmText) : string :=
  match t with
  | LlmLines lines => join " " lines
  | LlmStr s => s
  | LlmNone => EmptyString
  end.

(** ** [_clean_text] *)

Definition _clean_text (s : string) : string := remove_punct (strip (lower s)).

(** ** Fuzzy matching *)

(** The matcher calls [rapidfuzz.process.extractOne] with
    [scorer=fuzz.ratio]; rapidfuzz is a library outside the repository.  The
    scorer is a parameter of the model, and [extractOne] follows what the
    specification says of it. *)

(** The longest common subsequence, from which the Indel distance of
    [fuzz.ratio] is computed. *)
Fixpoint lcs (s t : string) : nat :=
  match s with
  | EmptyString => 0
  | String a s' =>
      (fix inner (t : string) : nat :=
         match t with
         | EmptyString => 0
         | String b t' =>
             if Ascii.eqb a b then S (lcs s' t')
             else Nat.max (lcs s' t) (inner t')
         end) t
  end.

(** Modelled from the spec: [fuzz.ratio], "a similarity score (0-100 ...;
    any standard edit-distance-based ratio)" (section 4.3, step 4).  This is
    the ratio rapidfuzz documents: the normalised Indel similarity
    [(1 - dist / (len1 + len2)) * 100] with [dist = len1 + len2 - 2 * lcs].
    It is used for closed examples only; the theorems hold for any scorer. *)
Definition fuzz_ratio (s t : string) : float :=
  let maximum := String.length s + String.length t in
  let dist := maximum - 2 * lcs s t in
  let norm_dist :=
    if Nat.eqb maximum 0 then 0%float
    else (PyNum.of_nat dist / PyNum.of_nat maximum)%float in
  ((1 - norm_dist) * 100)%float.

Section Matcher.

(** [scorer=fuzz.ratio] *)
Variable scorer : string -> string -> float.

(** Modelled from the spec: [process.extractOne(query, choices,
    scorer=...)], "select the candidate with the maximum score; tie-break:
    first (lowest-index) candidate achieving the maximum score" (section 4.3,
    step 4).  The result is [(choice, score, index)], and [None] when there
    is no choice.  [i] is the index of the head of [choices]. *)
Fixpoint extract_loop (query : string) (choices : list string) (i : nat)
    (result : option (string * float * nat)) : option (string * float * nat) :=
  match choices with
  | [] => result
  | choice :: rest =>
      let score := scorer query choice in
      let result' :=
        match result with
        | None => Some (choice, score, i)
        | Some (_, best, _) =>
            if PrimFloat.ltb best score then Some (choice, score, i) else result
        end in
      extract_loop query rest (S i) result'
  end.

Definition extractOne (query : string) (choices : list string)
    : option (string * float * nat) :=
  extract_loop query choices 0 None.

Definition window_size : nat := 100.

(** One iteration of the anchor loop (source lines 75-106); the state is
    [(matches, llm_search_idx)]. *)
Definition match_step (llm_tokens : list string) (st : list Anchor * nat)
    (box_idx : nat) (b : Box) : list Anchor * nat :=
  let '(matches, llm_search_idx) := st in
  let '(rect, box_text) := b in
  if is_empty (strip box_text) then st
  else
    let clean_box := _clean_text box_text in
    if is_empty clean_box then st
    else
      let end_idx := Nat.min (List.length llm_tokens) (llm_search_idx + window_size) in
      let candidates :=
        slice llm_tokens (Z.of_nat llm_search_idx) (Z.of_nat end_idx) in
      let clean_candidates := map _clean_text candidates in
      match extractOne clean_box clean_candidates with
      | Some (best_clean_token, score, candidate_offset) =>
          if PrimFloat.ltb 80 score then
            let real_llm_idx := llm_search_idx + candidate_offset in
            let best_token := nth candidate_offset candidates EmptyString in
            (matches ++ [mkAnchor box_idx real_llm_idx (Some best_token) (Some rect)],
             real_llm_idx + 1)
          else st
      | None => st
      end.

(** [for box_idx, (rect, box_text) in enumerate(structured_data)],
    entered at index [box_idx]. *)
Fixpoint match_loop (llm_tokens : list string) (boxes : list Box)
    (box_idx : nat) (st : list Anchor * nat) : list Anchor * nat :=
  match boxes with
  | [] => st
  | b :: rest =>
      match_loop llm_tokens rest (S box_idx) (match_step llm_tokens st box_idx b)
  end.

(** The accepted anchors of a page. *)
Definition find_anchors (structured_data : list Box) (llm_tokens : list string)
    : list Anchor :=
  fst (match_loop llm_tokens structured_data 0 ([], 0)).

End Matcher.

(** ** Gap reconstruction *)

Definition newline : string := String (ascii_of_nat 10) EmptyString.

(** The line test of source lines 144-155 between the last box of the
    current row ([prev_b]) and the next gap box ([curr_b]). *)
Definition same_line (prev_b curr_b : Rect) : bool :=
  let y0_a := y0 prev_b in
  let y1_a := y1 prev_b in
  let y0_b := y0 curr_b in
  let y1_b := y1 curr_b in
  let inter_y0 := pymax y0_a y0_b in
  let inter_y1 := pymin y1_a y1_b in
  let intersection := pymax 0 (inter_y1 - inter_y0) in
  let min_height := pymin (y1_a - y0_a) (y1_b - y0_b) in
  PrimFloat.ltb (min_height * 0.5) intersection.

(** One iteration of the grouping loop: [current_row] is the last row of
    [rows]; the box joins it or opens a new row. *)
Definition row_step (rows : list (list Box)) (b : Box) : list (list Box) :=
  let current_row := last rows [] in
  let prev_b := fst (last current_row b) in
  let curr_b := fst b in
  if same_line prev_b curr_b
  then removelast rows ++ [current_row ++ [b]]
  else rows ++ [[b]].

Definition group_rows (gap_boxes : list Box) : list (list Box) :=
  match gap_boxes with
  | [] => []
  | b0 :: rest => fold_left row_step rest [[b0]]
  end.

(** [max(xe) - min(xs)] for one row. *)
Definition row_width (row : list Box) : option float :=
  match max_list (map (fun b => x1 (fst b)) row),
        min_list (map (fun b => x0 (fst b)) row) with
  | Some hi, Some lo => Some (hi - lo)%float
  | _, _ => None
  end.

Fixpoint row_widths (rows : list (list Box)) : option (list float) :=
  match rows with
  | [] => Some []
  | row :: rest =>
      match row_width row, row_widths rest with
      | Some w, Some ws => Some (w :: ws)
      | _, _ => None
      end
  end.

Definition total_width (widths : list float) : float :=
  fold_left PrimFloat.add widths 0%float.

Definition union_rect (row : list Box) : option Rect :=
  match min_list (map (fun b => x0 (fst b)) row),
        min_list (map (fun b => y0 (fst b)) row),
        max_list (map (fun b => x1 (fst b)) row),
        max_list (map (fun b => y1 (fst b)) row) with
  | Some a, Some b, Some c, Some d => Some (mkRect a b c d)
  | _, _, _, _ => None
  end.

(** Source lines 197-210: an empty chunk emits nothing. *)
Definition emit_chunk (row : list Box) (chunk : list string)
    (final_output : list Box) : option (list Box) :=
  if is_nil chunk then Some final_output
  else
    let gap_text := join " " chunk in
    match union_rect row with
    | Some r =>
        let gap_text :=
          if (50 <? String.length gap_text)%nat
          then String.append gap_text newline else gap_text in
        Some (final_output ++ [(r, gap_text)])
    | None => None
    end.

(** The chunk of row [i] and the next [token_start] (source lines 181-195);
    [None] when [round] raises. *)
Definition take_chunk (gap_tokens : list string) (widths : list float)
    (total : float) (nrows i : nat) (token_start : Z)
    : option (list string * Z) :=
  if PrimFloat.eqb total 0 then Some (gap_tokens, token_start)
  else
    let ratio := (nth i widths 0 / total)%float in
    match py_round (PyNum.of_nat (List.length gap_tokens) * ratio)%float with
    | None => None
    | Some count =>
        let len := Z.of_nat (List.length gap_tokens) in
        let count :=
          if ((count =? 0) && (0 <? len) && (token_start <? len))%Z
          then 1%Z else count in
        if Nat.eqb i (nrows - 1)
        then Some (slice_from gap_tokens token_start, token_start)
        else Some (slice gap_tokens token_start (token_start + count),
                   (token_start + count)%Z)
    end.

(** [for i, row in enumerate(rows)], entered at row [i]. *)
Fixpoint assign_loop (gap_tokens : list string) (widths : list float)
    (total : float) (nrows : nat) (rows : list (list Box)) (i : nat)
    (token_start : Z) (final_output : list Box) : option (list Box) :=
  match rows with
  | [] => Some final_output
  | row :: rest =>
      match take_chunk gap_tokens widths total nrows i token_start with
      | None => None
      | Some (chunk, token_start') =>
          match emit_chunk row chunk final_output with
          | None => None
          | Some out =>
              assign_loop gap_tokens widths total nrows rest (S i) token_start' out
          end
      end
  end.

(** Source lines 217-233: the box made up below the last element. *)
Definition synthetic_rect (last_rect : Rect) : Rect :=
  let h := (y1 last_rect - y0 last_rect)%float in
  let h := if PrimFloat.ltb h 0.02 then 0.02%float else h in
  let new_y0 := (y1 last_rect + h * 0.2)%float in
  let new_y1 := (new_y0 + h)%float in
  if PrimFloat.ltb 0.98 new_y1
  then mkRect 0.05 (pymax 0.9 (0.98 - h)) 0.95 0.98
  else mkRect 0.05 new_y0 0.95 new_y1.

Definition default_rect : Rect := mkRect 0 0 1 0.1.

(** Source lines 128-236: what one gap adds to [final_output]. *)
Definition fill_gap (gap_tokens : list string) (gap_boxes : list Box)
    (final_output : list Box) : option (list Box) :=
  if is_nil gap_tokens then Some final_output
  else if negb (is_nil gap_boxes) then
    let rows := group_rows gap_boxes in
    match row_widths rows with
    | None => None
    | Some widths =>
        assign_loop gap_tokens widths (total_width widths)
          (List.length rows) rows 0 0 final_output
    end
  else
    let gap_text := join " " gap_tokens in
    match final_output with
    | [] => Some (final_output ++ [(default_rect, gap_text)])
    | e :: _ =>
        let last_rect := fst (last final_output e) in
        Some (final_output ++ [(synthetic_rect last_rect, gap_text)])
    end.

(** [for anchor in matches] (source lines 121-242).  An entry whose [text]
    is not [None] is an accepted anchor, stored with its rect. *)
Fixpoint reconstruct (structured_data : list Box) (llm_tokens : list string)
    (matches : list Anchor) (prev_box_idx prev_llm_idx : Z)
    (final_output : list Box) : option (list Box) :=
  match matches with
  | [] => Some final_output
  | anchor :: rest =>
      let curr_box_idx := Z.of_nat (box_idx anchor) in
      let curr_llm_idx := Z.of_nat (llm_idx anchor) in
      let gap_tokens := slice llm_tokens (prev_llm_idx + 1) curr_llm_idx in
      let gap_boxes := slice structured_data (prev_box_idx + 1) curr_box_idx in
      match fill_gap gap_tokens gap_boxes final_output with
      | None => None
      | Some out =>
          let out :=
            match text anchor, rect anchor with
            | Some t, Some r => out ++ [(r, t)]
            | _, _ => out
            end in
          reconstruct structured_data llm_tokens rest curr_box_idx curr_llm_idx out
      end
  end.

Definition full_page : Rect := mkRect 0 0 1 1.

Section Aligner.

Variable scorer : string -> string -> float.

Definition sentinel (structured_data : list Box) (llm_tokens : list string)
    : Anchor :=
  mkAnchor (List.length structured_data) (List.length llm_tokens) None None.

(** [HybridAligner.align_text] *)
Definition align_text (structured_data : list Box) (llm_text : LlmText)
    : option (list Box) :=
  if falsy llm_text then Some structured_data
  else
    let full_llm_text := full_text llm_text in
    let llm_tokens := split full_llm_text in
    if is_nil llm_tokens then Some structured_data
    else
      let matches := find_anchors scorer structured_data llm_tokens in
      let matches := matches ++ [sentinel structured_data llm_tokens] in
      match reconstruct structured_data llm_tokens matches (-1) (-1) [] with
      | None => None
      | Some final_output =>
          if is_nil final_output && negb (is_nil structured_data)
          then Some [(full_page, String.append full_llm_text newline)]
          else Some final_output
      end.

End Aligner.

(** ** [get_structured_text] *)

(** One entry of the detector's [results]: [(bbox, text, conf)]. *)
Definition Detection : Type := (list (float * float) * string * float)%type.

(** The rect of one detection, normalised by the image size (source lines
    35-42); [None] on an empty polygon or a zero dimension. *)
Definition detection_rect (img_w img_h : Z) (bbox : list (float * float))
    : option Rect :=
  let xs := map fst bbox in
  let ys := map snd bbox in
  match min_list xs, min_list ys, max_list xs, max_list ys with
  | Some bx0, Some by0, Some bx1, Some by1 =>
      if ((img_w =? 0) || (img_h =? 0))%Z then None
      else
        let w := PyNum.of_Z img_w in
        let h := PyNum.of_Z img_h in
        Some (mkRect (bx0 / w) (by0 / h) (bx1 / w) (by1 / h))
  | _, _, _, _ => None
  end.

Fixpoint get_structured_text (img_w img_h : Z) (results : list Detection)
    : option (list Box) :=
  match results with
  | [] => Some []
  | (bbox, text, conf) :: rest =>
      match detection_rect img_w img_h bbox,
            get_structured_text img_w img_h rest with
      | Some r, Some structured_data => Some ((r, text) :: structured_data)
      | _, _ => None
      end
  end.

(** ** [OCRProcessor.perform_ocr] (src/ocr.py) *)

(** [s.split(sep)] for a one-character separator: the pieces between the
    separators, empty pieces included.  [cur] is the piece being read. *)
Fixpoint split_on_from (sep : ascii) (cur : string) (s : string) : list string :=
  match s with
  | EmptyString => [cur]
  | String c s' =>
      if Ascii.eqb c sep then cur :: split_on_from sep EmptyString s'
      else split_on_from sep (String.append cur (String c EmptyString)) s'
  end.

Definition split_on (sep : ascii) (s : string) : list string :=
  split_on_from sep EmptyString s.

(** The body of [perform_ocr] after the transcription has been awaited
    (source lines 25-29): [text] is what [_transcribe] returned. *)
Definition perform_ocr (text : string) : list string :=
  if is_empty text then []
  else
    map strip
      (filter (fun line => negb (is_empty (strip line)))
         (split_on (ascii_of_nat 10) text)).


(** * Definitions used by the statements *)

(** ** The anchor loop *)

(** The order on anchors: strictly increasing in both indices. *)
Definition anchor_lt (a b : Anchor) : Prop :=
  box_idx a < box_idx b /\ llm_idx a < llm_idx b.

(** An accepted anchor, seen from box index [bi] and cursor [si]: it lies
    below both, its text is the original token and it has a rect. *)
Definition anchor_ok (tokens : list string) (bi si : nat) (a : Anchor) : Prop :=
  box_idx a < bi /\ llm_idx a < si /\
  text a = Some (nth (llm_idx a) tokens EmptyString) /\
  exists r, rect a = Some r.

(** The invariant of the anchor loop before the box of index [bi]. *)
Definition match_inv (tokens : list string) (bi : nat)
    (st : list Anchor * nat) : Prop :=
  snd st <= List.length tokens /\
  Forall (anchor_ok tokens bi (snd st)) (fst st) /\
  StronglySorted anchor_lt (fst st).

(** The candidate window of a box met with the cursor at [llm_search_idx]
    (source lines 82-83). *)
Definition window (llm_tokens : list string) (llm_search_idx : nat) : list string :=
  slice llm_tokens (Z.of_nat llm_search_idx)
    (Z.of_nat (Nat.min (List.length llm_tokens) (llm_search_idx + window_size))).

(** ** Rows *)

(** The words of the specification: the vertical intersection of two boxes,
    the shorter of their heights, and the 50% test. *)
Definition vertical_intersection (a b : Rect) : float :=
  pymax 0 (pymin (y1 a) (y1 b) - pymax (y0 a) (y0 b)).

Definition shorter_height (a b : Rect) : float :=
  pymin (y1 a - y0 a) (y1 b - y0 b).

Definition overlaps_half (a b : Rect) : bool :=
  PrimFloat.ltb (shorter_height a b * 0.5) (vertical_intersection a b).

(** There is a row as soon as there is a box, and no row is empty. *)
Definition rows_ok (rows : list (list Box)) : Prop :=
  rows <> [] /\ Forall (fun row => row <> []) rows.

(** ** Synthetic boxes *)

(** The rect of the specification for a gap with tokens and no box, below a
    previous element of rect [prev]. *)
Definition spec_synthetic_rect (prev : Rect) : Rect :=
  let h := pymax (y1 prev - y0 prev) 0.02 in
  let sy0 := (y1 prev + 0.2 * h)%float in
  let sy1 := (sy0 + h)%float in
  if PrimFloat.ltb 0.98 sy1
  then mkRect 0.05 (pymax 0.9 (0.98 - h)) 0.95 0.98
  else mkRect 0.05 sy0 0.95 sy1.

(** The rect of the last element of the output so far, if any. *)
Definition prior_rect (final_output : list Box) : option Rect :=
  match final_output with
  | [] => None
  | e :: _ => Some (fst (last final_output e))
  end.

(** ** Degenerate boxes *)

(** A rect without area, and a box the specification would drop. *)
Definition zero_area (r : Rect) : bool :=
  PrimFloat.eqb ((x1 r - x0 r) * (y1 r - y0 r)) 0.

Definition degenerate (b : Box) : bool :=
  zero_area (fst b) || is_empty (strip (snd b)).

(** ** Tokens of a result *)

(** The words carried by a result, in output order. *)
Definition token_seq (out : list Box) : list string :=
  flat_map (fun b => split (snd b)) out.

Definition words (toks : list string) : Prop :=
  Forall (fun w => is_word w = true) toks.

(** The rounded share of a row of width [w] (source lines 185-186) exists
    and is not negative. *)
Definition share_ok (n : nat) (total w : float) : bool :=
  match py_round (PyNum.of_nat n * (w / total))%float with
  | Some count => (0 <=? count)%Z
  | None => false
  end.

(** A gap with tokens and boxes is regular when its rows have a non-zero
    total width and every row has a non-negative rounded share, or when it
    is a single row of zero width. *)
Definition regular_gap (gap_tokens : list string) (gap_boxes : list Box) : bool :=
  match row_widths (group_rows gap_boxes) with
  | None => false
  | Some widths =>
      let total := total_width widths in
      if PrimFloat.eqb total 0 then (List.length widths <=? 1)%nat
      else forallb (share_ok (List.length gap_tokens) total) widths
  end.

(** Regularity of every gap met by [reconstruct]: the gaps are cut exactly
    as the loop cuts them (source lines 125-126). *)
Fixpoint regular_gaps (structured_data : list Box) (llm_tokens : list string)
    (matches : list Anchor) (prev_box_idx prev_llm_idx : Z) : bool :=
  match matches with
  | [] => true
  | anchor :: rest =>
      let curr_box_idx := Z.of_nat (box_idx anchor) in
      let curr_llm_idx := Z.of_nat (llm_idx anchor) in
      let gap_tokens := slice llm_tokens (prev_llm_idx + 1) curr_llm_idx in
      let gap_boxes := slice structured_data (prev_box_idx + 1) curr_box_idx in
      (is_nil gap_tokens || is_nil gap_boxes || regular_gap gap_tokens gap_boxes)
      && regular_gaps structured_data llm_tokens rest curr_box_idx curr_llm_idx
  end.

Definition regular_page (scorer : string -> string -> float)
    (structured_data : list Box) (llm_tokens : list string) : bool :=
  regular_gaps structured_data llm_tokens
    (find_anchors scorer structured_data llm_tokens
     ++ [sentinel structured_data llm_tokens]) (-1) (-1).

(** An entry of [matches]: an accepted anchor or the end sentinel. *)
Definition entry_ok (llm_tokens : list string) (a : Anchor) : Prop :=
  (llm_idx a < List.length llm_tokens
   /\ text a = Some (nth (llm_idx a) llm_tokens EmptyString)
   /\ exists r, rect a = Some r)
  \/ (llm_idx a = List.length llm_tokens /\ text a = None).

(** The entries of [matches] lie strictly above [prev] and above one
    another in [llm_idx]. *)
Fixpoint ascending (prev : Z) (matches : list Anchor) : Prop :=
  match matches with
  | [] => True
  | a :: rest =>
      (prev < Z.of_nat (llm_idx a))%Z /\ ascending (Z.of_nat (llm_idx a)) rest
  end.

(** [prev_llm_idx] when the loop over [matches] ends. *)
Definition last_llm (prev : Z) (matches : list Anchor) : Z :=
  fold_left (fun _ a => Z.of_nat (llm_idx a)) matches prev.

(** ** Strings made of white space *)

Fixpoint all_space (s : string) : bool :=
  match s with
  | EmptyString => true
  | String c s' => is_space c && all_space s'
  end.


(** ** Characters of a string *)

Fixpoint string_forallb (p : ascii -> bool) (s : string) : bool :=
  match s with
  | EmptyString => true
  | String c s' => p c && string_forallb p s'
  end.

Definition no_newline (s : string) : bool :=
  string_forallb (fun c => negb (Ascii.eqb c (ascii_of_nat 10))) s.

(** An upper-case ASCII letter. *)
Definition is_upper (c : ascii) : bool :=
  let n := nat_of_ascii c in ((65 <=? n) && (n <=? 90))%nat.


(** ** Anchors and the page *)

(** An anchor is sound for a page: its [box_idx] designates a box of the
    page, whose rect it carries and whose cleaned text is not empty; its
    [llm_idx] designates a token, which is its text; and the cleaned box text
    scores above 80 against the cleaned token. *)
Definition anchor_sound (scorer : string -> string -> float)
    (structured_data : list Box) (llm_tokens : list string) (a : Anchor) : Prop :=
  exists r box_text tok,
    nth_error structured_data (box_idx a) = Some (r, box_text)
    /\ nth_error llm_tokens (llm_idx a) = Some tok
    /\ rect a = Some r /\ text a = Some tok
    /\ is_empty (_clean_text box_text) = false
    /\ PrimFloat.ltb 80 (scorer (_clean_text box_text) (_clean_text tok)) = true.

(** Every anchor lies in the window opened one token after the previous
    anchor ([start] for the first one): at most [window_size - 1] tokens are
    skipped between two anchors. *)
Fixpoint window_chain (start : nat) (anchors : list Anchor) : Prop :=
  match anchors with
  | [] => True
  | a :: rest =>
      start <= llm_idx a < start + window_size
      /\ window_chain (S (llm_idx a)) rest
  end.

(** The cursor after a list of anchors accepted from cursor [start]. *)
Definition cursor_after (start : nat) (anchors : list Anchor) : nat :=
  fold_left (fun _ a => S (llm_idx a)) anchors start.


(** ** Rows as runs *)

(** Every box of [row] overlaps the box before it by more than half; [prev]
    is the rect before the first one. *)
Fixpoint chained (prev : Rect) (row : list Box) : bool :=
  match row with
  | [] => true
  | b :: rest => overlaps_half prev (fst b) && chained (fst b) rest
  end.

Definition row_chained (row : list Box) : bool :=
  match row with
  | [] => true
  | b :: rest => chained (fst b) rest
  end.

(** The last box of a row does not overlap the first box of the next row by
    more than half. *)
Definition row_breaks (r1 r2 : list Box) : bool :=
  match r1, r2 with
  | b1 :: _, b2 :: _ => negb (overlaps_half (fst (last r1 b1)) (fst b2))
  | _, _ => true
  end.

Fixpoint rows_break (rows : list (list Box)) : bool :=
  match rows with
  | [] => true
  | r1 :: rest =>
      match rest with
      | [] => true
      | r2 :: _ => row_breaks r1 r2 && rows_break rest
      end
  end.


(** ** Anchors in the result *)

(** [l1] is [l2] with some elements left out. *)
Inductive subseq {A : Type} : list A -> list A -> Prop :=
| subseq_nil : forall l, subseq [] l
| subseq_skip : forall x l1 l2, subseq l1 l2 -> subseq l1 (x :: l2)
| subseq_take : forall x l1 l2, subseq l1 l2 -> subseq (x :: l1) (x :: l2).

(** The element an entry of [matches] adds to the result (source lines
    238-239): none for the sentinel. *)
Definition anchor_elem (a : Anchor) : list Box :=
  match text a, rect a with
  | Some t, Some r => [(r, t)]
  | _, _ => []
  end.

Definition anchor_elems (matches : list Anchor) : list Box :=
  flat_map anchor_elem matches.


(** An element whose text holds at least one word. *)
Definition has_word (e : Box) : Prop := split (snd e) <> [].


(** The wrap hint of source line 208. *)
Definition wrap_hint (gap_text : string) : string :=
  if (50 <? String.length gap_text)%nat
  then String.append gap_text newline else gap_text.


(** ** Closed inputs of the examples *)

Definition box_at (a b c d : float) (t : string) : Box := (mkRect a b c d, t).

(** Two boxes that match the two tokens of "Hello world". *)
Definition two_word_page : list Box :=
  [box_at 0.1 0.1 0.3 0.2 "Helo"; box_at 0.4 0.1 0.6 0.2 "wrld"].

(** The row scenario: vertical extents [0.10,0.14], [0.11,0.15], [0.30,0.34]. *)
Definition three_line_boxes : list Box :=
  [box_at 0.1 0.10 0.3 0.14 "a"; box_at 0.4 0.11 0.6 0.15 "b";
   box_at 0.1 0.30 0.3 0.34 "c"].

(** Two boxes of zero width on two lines. *)
Definition thin_boxes : list Box :=
  [box_at 0.1 0.1 0.1 0.2 "a"; box_at 0.1 0.5 0.1 0.6 "b"].

(** A detection reduced to one point, with blank text. *)
Definition point_detection : Detection :=
  ([(10, 10); (10, 10); (10, 10); (10, 10)]%float, "  ", 0.9%float).

(** One box that anchors, then two boxes of zero width on two lines. *)
Definition thin_gap_page : list Box :=
  [box_at 0.1 0.1 0.3 0.2 "Helo"; box_at 0.1 0.3 0.1 0.4 "a";
   box_at 0.1 0.5 0.1 0.6 "b"].

(** One box that anchors, then two boxes on two lines that match nothing. *)
Definition gapped_page : list Box :=
  [box_at 0.1 0.1 0.3 0.2 "Helo"; box_at 0.1 0.3 0.5 0.4 "zzz";
   box_at 0.1 0.5 0.3 0.6 "qqq"].

(** * Properties *)

(** ** Slices *)

Lemma clamp_of_nat (len n : nat) : clamp len (Z.of_nat n) = Nat.min len n.
Proof.
  unfold clamp. destruct (Z.ltb_spec (Z.of_nat n) 0); [lia|].
  now rewrite Nat2Z.id.
Qed.

Lemma clamp_le (len : nat) (i : Z) : clamp len i <= len.
Proof.
  unfold clamp. destruct (Z.ltb_spec i 0); lia.
Qed.

Lemma slice_of_nat {A : Type} (l : list A) (s e : nat) :
  s <= List.length l ->
  slice l (Z.of_nat s) (Z.of_nat e) = firstn (e - s) (skipn s l).
Proof.
  intros Hs. unfold slice. rewrite !clamp_of_nat.
  rewrite (Nat.min_r _ _ Hs).
  destruct (Nat.le_ge_cases e (List.length l)) as [He|He].
  - now rewrite (Nat.min_r _ _ He).
  - rewrite (Nat.min_l _ _ He).
    rewrite !firstn_all2; trivial; rewrite length_skipn; lia.
Qed.

Lemma slice_length_nat {A : Type} (l : list A) (s e : nat) :
  s <= e -> e <= List.length l ->
  List.length (slice l (Z.of_nat s) (Z.of_nat e)) = e - s.
Proof.
  intros Hse He. rewrite slice_of_nat by lia.
  rewrite length_firstn, length_skipn. lia.
Qed.

Lemma slice_nth_nat {A : Type} (l : list A) (s e k : nat) (d : A) :
  s <= List.length l -> k < e - s ->
  nth k (slice l (Z.of_nat s) (Z.of_nat e)) d = nth (s + k) l d.
Proof.
  intros Hs Hk. rewrite slice_of_nat by assumption.
  rewrite nth_firstn.
  destruct (Nat.ltb_spec k (e - s)); [|lia].
  now rewrite nth_skipn.
Qed.

(** ** The Python primitives on closed inputs *)

Example py_round_half_even :
  py_round 2.5 = Some 2%Z /\ py_round 3.5 = Some 4%Z
  /\ py_round (-0.5) = Some 0%Z /\ py_round (-1.5) = Some (-2)%Z
  /\ py_round (1 / 0) = None /\ py_round (0 / 0) = None.
Proof. repeat split. Qed.

Example slice_negative_bounds :
  slice [1; 2; 3; 4; 5] 0 (-1) = [1; 2; 3; 4]
  /\ slice_from [1; 2; 3; 4; 5] (-1) = [5]
  /\ slice [1; 2; 3; 4; 5] (-3) 7 = [3; 4; 5]
  /\ slice [1; 2; 3; 4; 5] 3 1 = [].
Proof. repeat split. Qed.

Example split_strip_clean :
  split (String.append "  a b" (String.append newline " c  ")) = ["a"; "b"; "c"]
  /\ strip "  Hello, World!  " = "Hello, World!"
  /\ _clean_text "  Hello, World!  " = "hello world".
Proof. repeat split. Qed.

(** ** Splitting and joining *)

Section SplitJoin.

#[local] Open Scope string_scope.

Lemma string_app_assoc (a b c : string) :
  String.append (String.append a b) c = String.append a (String.append b c).
Proof. induction a as [|x a IH]; simpl; [reflexivity|now rewrite IH]. Qed.

Lemma string_app_empty_r (a : string) : String.append a EmptyString = a.
Proof. induction a as [|x a IH]; simpl; [reflexivity|now rewrite IH]. Qed.

Lemma is_empty_app (a b : string) :
  is_empty (String.append a b) = is_empty a && is_empty b.
Proof. now destruct a. Qed.

Lemma no_space_app (a b : string) :
  no_space (String.append a b) = no_space a && no_space b.
Proof.
  induction a as [|x a IH]; simpl; [reflexivity|].
  now rewrite IH, andb_assoc.
Qed.

(** Reading a run of non-space characters only extends the current run. *)
Lemma split_from_run (w cur rest : string) :
  no_space w = true ->
  split_from cur (String.append w rest) = split_from (String.append cur w) rest.
Proof.
  revert cur. induction w as [|c w IH]; intros cur Hw; simpl.
  - now rewrite string_app_empty_r.
  - simpl in Hw. apply andb_true_iff in Hw. destruct Hw as [Hc Hw].
    apply negb_true_iff in Hc. rewrite Hc.
    rewrite IH by assumption. rewrite string_app_assoc. reflexivity.
Qed.

Lemma split_from_words (s cur : string) :
  no_space cur = true ->
  Forall (fun w => is_word w = true) (split_from cur s).
Proof.
  revert cur. induction s as [|c s IH]; intros cur Hcur; simpl.
  - destruct (is_empty cur) eqn:He; constructor; [|constructor].
    unfold is_word. now rewrite He, Hcur.
  - destruct (is_space c) eqn:Hc.
    + destruct (is_empty cur) eqn:He.
      * now apply IH.
      * constructor; [|now apply IH]. unfold is_word. now rewrite He, Hcur.
    + apply IH. rewrite no_space_app, Hcur. simpl. now rewrite Hc.
Qed.

(** [split] yields words. *)
Lemma split_words (s : string) : Forall (fun w => is_word w = true) (split s).
Proof. now apply split_from_words. Qed.

(** Splitting the space-joined words, with or without the wrap newline,
    gives the words back. *)
Lemma split_join (toks : list string) (wrap : bool) :
  Forall (fun w => is_word w = true) toks ->
  split (String.append (join " " toks) (if wrap then newline else EmptyString))
  = toks.
Proof.
  induction 1 as [|x toks Hx Hall IH].
  - now destruct wrap.
  - unfold is_word in Hx. apply andb_true_iff in Hx. destruct Hx as [Hne Hx].
    apply negb_true_iff in Hne.
    unfold split, join in *. destruct toks as [|y toks].
    + simpl String.concat. rewrite split_from_run by assumption. simpl.
      destruct wrap; simpl; now rewrite Hne.
    + change (String.concat " " (x :: y :: toks))
        with (String.append x (String " " (String.concat " " (y :: toks)))).
      rewrite string_app_assoc, split_from_run by assumption.
      simpl. rewrite Hne. f_equal. exact IH.
Qed.

Lemma split_word (w : string) : is_word w = true -> split w = [w].
Proof.
  intros Hw.
  pose proof (split_join [w] false (Forall_cons _ Hw (Forall_nil _))) as H.
  simpl in H. now rewrite string_app_empty_r in H.
Qed.

End SplitJoin.

(** ** The matcher *)

Section MatcherFacts.

Variable scorer : string -> string -> float.

(** What [extractOne] returns is a choice, its score and its index. *)
Lemma extract_loop_inv (query : string) (choices : list string) (i : nat)
    (result : option (string * float * nat)) tok score off :
  extract_loop scorer query choices i result = Some (tok, score, off) ->
  result = Some (tok, score, off) \/
  (i <= off /\ nth_error choices (off - i) = Some tok /\
   score = scorer query tok).
Proof.
  revert i result.
  induction choices as [|c rest IH]; intros i result H; simpl in H.
  - now left.
  - apply IH in H. destruct H as [H|(Hle & Hnth & Hs)].
    + destruct result as [[[t0 b0] o0]|].
      * destruct (PrimFloat.ltb b0 (scorer query c)).
        -- inversion H; subst. right. rewrite Nat.sub_diag. simpl. auto.
        -- now left.
      * inversion H; subst. right. rewrite Nat.sub_diag. simpl. auto.
    + right. split; [lia|]. split; [|assumption].
      replace (off - i) with (S (off - S i)) by lia. exact Hnth.
Qed.

Lemma extractOne_inv (query : string) (choices : list string) tok score off :
  extractOne scorer query choices = Some (tok, score, off) ->
  nth_error choices off = Some tok /\ score = scorer query tok.
Proof.
  intros H. apply extract_loop_inv in H.
  destruct H as [H|(_ & Hnth & Hs)]; [discriminate|].
  now rewrite Nat.sub_0_r in Hnth.
Qed.

Lemma extract_loop_some (query : string) (choices : list string) (i : nat) r :
  exists r', extract_loop scorer query choices i (Some r) = Some r'.
Proof.
  revert i r. induction choices as [|c rest IH]; intros i r; simpl.
  - now exists r.
  - destruct r as [[t0 b0] o0].
    destruct (PrimFloat.ltb b0 (scorer query c)); apply IH.
Qed.

(** [extractOne] finds nothing exactly when there is no choice. *)
Lemma extractOne_none (query : string) (choices : list string) :
  extractOne scorer query choices = None <-> choices = [].
Proof.
  unfold extractOne. destruct choices as [|c rest]; simpl.
  - tauto.
  - destruct (extract_loop_some query rest 1 (c, scorer query c, 0)) as [r' Hr].
    rewrite Hr. split; discriminate.
Qed.

Lemma anchor_ok_mono tokens bi si bi' si' a :
  bi <= bi' -> si <= si' -> anchor_ok tokens bi si a -> anchor_ok tokens bi' si' a.
Proof.
  unfold anchor_ok. intros ? ? (? & ? & ? & ?). repeat split; trivial; lia.
Qed.

Lemma StronglySorted_snoc {A : Type} (R : A -> A -> Prop) (l : list A) (a : A) :
  StronglySorted R l -> Forall (fun x => R x a) l -> StronglySorted R (l ++ [a]).
Proof.
  induction 1 as [|x l Hs IH Hx]; intros Hf; simpl.
  - repeat constructor.
  - inversion Hf; subst. constructor.
    + now apply IH.
    + apply Forall_app. split; [assumption|]. now constructor.
Qed.

Lemma match_step_inv tokens bi st b :
  match_inv tokens bi st -> match_inv tokens (S bi) (match_step scorer tokens st bi b).
Proof.
  destruct st as [matches si], b as [r box_text].
  intros (Hsi & Hok & Hsorted). simpl in Hsi, Hok, Hsorted.
  assert (Hkeep : match_inv tokens (S bi) (matches, si)).
  { repeat split; simpl; trivial.
    eapply Forall_impl; [|exact Hok].
    intros a. apply anchor_ok_mono; lia. }
  unfold match_step.
  destruct (is_empty (strip box_text)); [exact Hkeep|].
  destruct (is_empty (_clean_text box_text)); [exact Hkeep|].
  set (e := Nat.min (List.length tokens) (si + window_size)).
  destruct (extractOne scorer _ _) as [[[tok score] off]|] eqn:Hext;
    [|exact Hkeep].
  destruct (PrimFloat.ltb 80 score); [|exact Hkeep].
  apply extractOne_inv in Hext. destruct Hext as [Hnth _].
  assert (Hoff : off < e - si).
  { assert (Hlt : off < List.length (map _clean_text (slice tokens (Z.of_nat si) (Z.of_nat e)))).
    { apply nth_error_Some. congruence. }
    rewrite length_map, slice_length_nat in Hlt; subst e; lia. }
  assert (He : e <= List.length tokens) by (subst e; lia).
  repeat split; simpl.
  - lia.
  - apply Forall_app. split.
    + eapply Forall_impl; [|exact Hok].
      intros a. apply anchor_ok_mono; lia.
    + constructor; [|constructor].
      unfold anchor_ok; simpl. repeat split; try lia.
      * now rewrite slice_nth_nat.
      * now exists r.
  - apply StronglySorted_snoc; [assumption|].
    eapply Forall_impl; [|exact Hok].
    intros a (Hb & Hl & _). unfold anchor_lt; simpl. lia.
Qed.

Lemma match_loop_inv tokens boxes bi st :
  match_inv tokens bi st ->
  match_inv tokens (bi + List.length boxes) (match_loop scorer tokens boxes bi st).
Proof.
  revert bi st. induction boxes as [|b rest IH]; intros bi st H; simpl.
  - now rewrite Nat.add_0_r.
  - replace (bi + S (List.length rest)) with (S bi + List.length rest) by lia.
    apply IH. now apply match_step_inv.
Qed.

Lemma find_anchors_inv structured_data tokens :
  match_inv tokens (List.length structured_data)
    (match_loop scorer tokens structured_data 0 ([], 0)).
Proof.
  apply (match_loop_inv tokens structured_data 0 ([], 0)).
  repeat split; simpl; [lia|constructor|constructor].
Qed.

Lemma StronglySorted_consecutive {A : Type} (R : A -> A -> Prop) (l : list A) :
  StronglySorted R l ->
  forall i a b, nth_error l i = Some a -> nth_error l (S i) = Some b -> R a b.
Proof.
  induction 1 as [|x l Hs IH Hx]; intros i a b Ha Hb.
  - destruct i; discriminate.
  - destruct i as [|i]; simpl in Ha, Hb.
    + inversion Ha; subst. rewrite Forall_forall in Hx.
      apply Hx. destruct l; [discriminate|]. inversion Hb. now left.
    + eapply IH; eassumption.
Qed.

End MatcherFacts.

(** ** The best score *)

Lemma SFcompare_lt_trans (x y z : spec_float) :
  SFcompare x y = Some Lt -> SFcompare y z = Some Lt -> SFcompare x z = Some Lt.
Proof.
  destruct x as [sx|sx| |sx mx ex], y as [sy|sy| |sy my ey],
    z as [sz|sz| |sz mz ez]; simpl;
    try discriminate; try reflexivity;
    try (destruct sx, sy, sz; simpl; intros; congruence).
  destruct sx, sy, sz; try congruence; try reflexivity;
    fold (Pos.compare mx my); fold (Pos.compare my mz); fold (Pos.compare mx mz);
    destruct (Z.compare_spec ex ey), (Z.compare_spec ey ez),
      (Z.compare_spec ex ez); subst; try lia; try congruence;
    destruct (Pos.compare_spec mx my), (Pos.compare_spec my mz),
      (Pos.compare_spec mx mz); subst; simpl; try lia; congruence.
Qed.

Lemma SFcompare_irrefl (x : spec_float) : SFcompare x x <> Some Lt.
Proof.
  destruct x as [s|s| |s m e]; simpl; try discriminate.
  - destruct s; discriminate.
  - rewrite Z.compare_refl. fold (Pos.compare m m). rewrite Pos.compare_refl.
    destruct s; discriminate.
Qed.

Lemma float_ltb_trans (a b c : float) :
  PrimFloat.ltb a b = true -> PrimFloat.ltb b c = true -> PrimFloat.ltb a c = true.
Proof.
  rewrite !ltb_spec. unfold SFltb.
  destruct (SFcompare (Prim2SF a) (Prim2SF b)) as [[| |]|] eqn:Hab; try discriminate.
  destruct (SFcompare (Prim2SF b) (Prim2SF c)) as [[| |]|] eqn:Hbc; try discriminate.
  now rewrite (SFcompare_lt_trans _ _ _ Hab Hbc).
Qed.

Lemma float_ltb_irrefl (a : float) : PrimFloat.ltb a a = false.
Proof.
  rewrite ltb_spec. unfold SFltb.
  pose proof (SFcompare_irrefl (Prim2SF a)) as H.
  destruct (SFcompare (Prim2SF a) (Prim2SF a)) as [[| |]|]; congruence.
Qed.

(** No choice scores strictly above the score [extractOne] returns. *)
Lemma extract_loop_best (scorer : string -> string -> float) (query : string)
    (choices : list string) :
  forall (i : nat) (seen : list string) (result : option (string * float * nat))
         tok score off,
    match result with
    | None => seen = []
    | Some (_, best, _) =>
        forall c, In c seen -> PrimFloat.ltb best (scorer query c) = false
    end ->
    extract_loop scorer query choices i result = Some (tok, score, off) ->
    forall c, In c (seen ++ choices) -> PrimFloat.ltb score (scorer query c) = false.
Proof.
  induction choices as [|choice rest IH]; intros i seen result tok score off Hinv H.
  - simpl in H. subst result. now rewrite app_nil_r.
  - simpl in H. intros c Hc.
    eapply (IH (S i) (seen ++ [choice])); [|exact H|].
    2:{ rewrite <- app_assoc. exact Hc. }
    + destruct result as [[[t0 best] o0]|].
      * destruct (PrimFloat.ltb best (scorer query choice)) eqn:Hlt.
        -- intros c' Hc'. apply in_app_or in Hc'. destruct Hc' as [Hc'|[<-|[]]].
           ++ destruct (PrimFloat.ltb (scorer query choice) (scorer query c')) eqn:E;
                [|reflexivity].
              rewrite <- (Hinv c' Hc'). symmetry.
              exact (float_ltb_trans _ _ _ Hlt E).
           ++ apply float_ltb_irrefl.
        -- intros c' Hc'. apply in_app_or in Hc'. destruct Hc' as [Hc'|[<-|[]]].
           ++ now apply Hinv.
           ++ exact Hlt.
      * subst seen. intros c' [<-|[]]. apply float_ltb_irrefl.
Qed.

Lemma extractOne_best (scorer : string -> string -> float) (query : string)
    (choices : list string) tok score off :
  extractOne scorer query choices = Some (tok, score, off) ->
  forall c, In c choices -> PrimFloat.ltb score (scorer query c) = false.
Proof.
  intros H. exact (extract_loop_best scorer query choices 0 [] None tok score off
                     eq_refl H).
Qed.

(** ** Monotone anchors *)

(** C1: for every detection list and content text, consecutive anchors
    emitted by the Anchor Matcher are strictly increasing in [box_idx] and in
    [llm_idx]. *)
Theorem anchors_strictly_increasing
    (scorer : string -> string -> float) (structured_data : list Box)
    (llm_text : LlmText) (i : nat) (a b : Anchor) :
  let anchors := find_anchors scorer structured_data (split (full_text llm_text)) in
  nth_error anchors i = Some a ->
  nth_error anchors (S i) = Some b ->
  box_idx a < box_idx b /\ llm_idx a < llm_idx b.
Proof.
  intros anchors Ha Hb.
  destruct (find_anchors_inv scorer structured_data (split (full_text llm_text)))
    as (_ & _ & Hsorted).
  exact (StronglySorted_consecutive anchor_lt _ Hsorted i a b Ha Hb).
Qed.

Lemma anchors_strictly_increasing_witness :
  box_idx (mkAnchor 0 0 (Some "Hello") (Some (mkRect 0.1 0.1 0.3 0.2)))
  < box_idx (mkAnchor 1 1 (Some "world") (Some (mkRect 0.4 0.1 0.6 0.2)))
  /\ llm_idx (mkAnchor 0 0 (Some "Hello") (Some (mkRect 0.1 0.1 0.3 0.2)))
     < llm_idx (mkAnchor 1 1 (Some "world") (Some (mkRect 0.4 0.1 0.6 0.2))).
Proof.
  apply (anchors_strictly_increasing fuzz_ratio two_word_page
           (LlmStr "Hello world") 0); reflexivity.
Defined.

(** ** The acceptance threshold *)

Lemma snoc_neq {A : Type} (l : list A) (a : A) : l ++ [a] <> l.
Proof.
  intros H. apply (f_equal (@List.length A)) in H.
  rewrite length_app in H. simpl in H. lia.
Qed.

(** C6: for a box that reaches matching, an anchor is emitted if and only
    if the best score strictly exceeds 80; a best score of exactly 80 leaves
    the state unchanged, a best score of 81 appends an anchor carrying the
    original token. *)
Theorem anchor_iff_score_above_80
    (scorer : string -> string -> float) (llm_tokens : list string)
    (matches : list Anchor) (llm_search_idx box_idx : nat)
    (rect : Rect) (box_text : string) :
  is_empty (strip box_text) = false ->
  is_empty (_clean_text box_text) = false ->
  ((exists a,
       fst (match_step scorer llm_tokens (matches, llm_search_idx) box_idx
              (rect, box_text)) = matches ++ [a])
   <->
   (exists tok score off,
       extractOne scorer (_clean_text box_text)
         (map _clean_text (window llm_tokens llm_search_idx))
       = Some (tok, score, off)
       /\ PrimFloat.ltb 80 score = true))
  /\ (forall tok off,
        extractOne scorer (_clean_text box_text)
          (map _clean_text (window llm_tokens llm_search_idx))
        = Some (tok, 80%float, off) ->
        match_step scorer llm_tokens (matches, llm_search_idx) box_idx
          (rect, box_text) = (matches, llm_search_idx))
  /\ (forall tok off,
        extractOne scorer (_clean_text box_text)
          (map _clean_text (window llm_tokens llm_search_idx))
        = Some (tok, 81%float, off) ->
        match_step scorer llm_tokens (matches, llm_search_idx) box_idx
          (rect, box_text)
        = (matches ++ [mkAnchor box_idx (llm_search_idx + off)
                         (Some (nth off (window llm_tokens llm_search_idx)
                                  EmptyString))
                         (Some rect)],
           llm_search_idx + off + 1)).
Proof.
  intros Hstrip Hclean. unfold match_step, window.
  rewrite Hstrip, Hclean.
  set (cands := slice llm_tokens _ _).
  destruct (extractOne scorer _ _) as [[[tok score] off]|] eqn:Hext.
  - split; [split|split].
    + intros [a Ha]. exists tok, score, off. split; [reflexivity|].
      destruct (PrimFloat.ltb 80 score); [reflexivity|].
      simpl in Ha. symmetry in Ha. now apply snoc_neq in Ha.
    + intros (tok' & score' & off' & Heq & Hlt).
      inversion Heq; subst. rewrite Hlt. simpl. eauto.
    + intros tok' off' Heq. inversion Heq; subst. reflexivity.
    + intros tok' off' Heq. inversion Heq; subst. reflexivity.
  - split; [split|split].
    + intros [a Ha]. simpl in Ha. symmetry in Ha. now apply snoc_neq in Ha.
    + intros (tok' & score' & off' & Heq & _). discriminate.
    + discriminate.
    + discriminate.
Qed.

Lemma anchor_iff_score_above_80_witness :
  exists a,
    fst (match_step fuzz_ratio ["Hello"; "world"] ([], 0) 0
           (mkRect 0.1 0.1 0.3 0.2, "Helo")) = [] ++ [a].
Proof.
  apply (proj1 (anchor_iff_score_above_80 fuzz_ratio ["Hello"; "world"] [] 0 0
                  (mkRect 0.1 0.1 0.3 0.2) "Helo" eq_refl eq_refl)).
  exists "hello", (fuzz_ratio "helo" "hello"), 0. split; reflexivity.
Defined.

(** The scorer of the source at the boundary: a pair at distance 2 over 10
    characters scores exactly 80 and is rejected; "helo" against "hello"
    scores above 80 and is accepted. *)
Example threshold_boundary_rejected :
  fuzz_ratio "abcd" "abcdef" = 80%float /\
  find_anchors fuzz_ratio [box_at 0.1 0.1 0.3 0.2 "abcd"] ["abcdef"] = [].
Proof. split; reflexivity. Qed.

Example threshold_above_accepted :
  PrimFloat.ltb 80 (fuzz_ratio "helo" "hello") = true /\
  find_anchors fuzz_ratio [box_at 0.1 0.1 0.3 0.2 "Helo"] ["Hello,"; "world"]
  = [mkAnchor 0 0 (Some "Hello,") (Some (mkRect 0.1 0.1 0.3 0.2))].
Proof. split; reflexivity. Qed.

(** ** Passthrough *)

(** C9: with an absent or empty content text, [align_text] returns the
    detection list it was given, whatever that list is (in particular when
    it is non-empty). *)
Theorem align_text_empty_content_passthrough
    (scorer : string -> string -> float) (structured_data : list Box) :
  align_text scorer structured_data LlmNone = Some structured_data /\
  align_text scorer structured_data (LlmStr EmptyString) = Some structured_data /\
  align_text scorer structured_data (LlmLines []) = Some structured_data.
Proof. repeat split. Qed.

(** C10: a content input that is not empty but splits into no token makes
    [align_text] return the detection list unchanged. *)
Theorem align_text_no_token_passthrough
    (scorer : string -> string -> float) (structured_data : list Box)
    (llm_text : LlmText) :
  falsy llm_text = false ->
  split (full_text llm_text) = [] ->
  align_text scorer structured_data llm_text = Some structured_data.
Proof.
  intros Hf Hs. unfold align_text. now rewrite Hf, Hs.
Qed.

Lemma align_text_no_token_passthrough_witness :
  align_text fuzz_ratio two_word_page (LlmStr "   ") = Some two_word_page /\
  align_text fuzz_ratio two_word_page (LlmLines [" "; EmptyString; newline])
  = Some two_word_page.
Proof.
  split.
  - apply (align_text_no_token_passthrough fuzz_ratio two_word_page
             (LlmStr "   ")); reflexivity.
  - apply (align_text_no_token_passthrough fuzz_ratio two_word_page
             (LlmLines [" "; EmptyString; newline])); reflexivity.
Defined.

(** ** Row grouping *)

Lemma same_line_overlaps_half (a b : Rect) : same_line a b = overlaps_half a b.
Proof. reflexivity. Qed.

Lemma fold_row_step_snoc (rows : list (list Box)) (bs : list Box) (b : Box) :
  fold_left row_step (bs ++ [b]) rows = row_step (fold_left row_step bs rows) b.
Proof. now rewrite fold_left_app. Qed.

Lemma row_step_ok (rows : list (list Box)) (b : Box) :
  rows_ok rows -> rows_ok (row_step rows b).
Proof.
  intros [Hne Hall]. unfold row_step.
  destruct (same_line _ _); split.
  - intros H. apply app_eq_nil in H. destruct H; discriminate.
  - apply Forall_app. split.
    + rewrite Forall_forall in *. intros r Hr. apply Hall.
      pose proof (app_removelast_last [] Hne) as Hsplit.
      rewrite Hsplit. apply in_or_app. now left.
    + constructor; [|constructor].
      intros H. apply app_eq_nil in H. destruct H; discriminate.
  - intros H. apply app_eq_nil in H. destruct H; discriminate.
  - apply Forall_app. split; [assumption|].
    constructor; [discriminate|constructor].
Qed.

Lemma fold_row_step_ok (bs : list Box) (rows : list (list Box)) :
  rows_ok rows -> rows_ok (fold_left row_step bs rows).
Proof.
  revert rows. induction bs as [|b bs IH]; intros rows H; simpl; [assumption|].
  apply IH. now apply row_step_ok.
Qed.

Lemma group_rows_ok (gap_boxes : list Box) :
  gap_boxes <> [] -> rows_ok (group_rows gap_boxes).
Proof.
  destruct gap_boxes as [|b0 rest]; [congruence|]. intros _.
  apply fold_row_step_ok. split; [discriminate|].
  constructor; [discriminate|constructor].
Qed.

(** The rows, put end to end, are the gap boxes in their order. *)
Lemma row_step_concat (rows : list (list Box)) (b : Box) :
  rows <> [] -> List.concat (row_step rows b) = List.concat rows ++ [b].
Proof.
  intros Hne. unfold row_step.
  pose proof (app_removelast_last [] Hne) as Hsplit.
  set (current_row := last rows []) in *.
  set (done := removelast rows) in *.
  destruct (same_line _ _).
  - replace (List.concat rows) with (List.concat (done ++ [current_row]))
      by now rewrite <- Hsplit.
    rewrite !concat_app. simpl. rewrite !app_nil_r. now rewrite app_assoc.
  - rewrite concat_app. simpl. reflexivity.
Qed.

Lemma fold_row_step_concat (bs : list Box) (rows : list (list Box)) :
  rows_ok rows -> List.concat (fold_left row_step bs rows) = List.concat rows ++ bs.
Proof.
  revert rows. induction bs as [|b bs IH]; intros rows H; simpl.
  - now rewrite app_nil_r.
  - rewrite IH by now apply row_step_ok.
    rewrite row_step_concat by apply H. now rewrite <- app_assoc.
Qed.

Lemma group_rows_concat (gap_boxes : list Box) :
  List.concat (group_rows gap_boxes) = gap_boxes.
Proof.
  destruct gap_boxes as [|b0 rest]; [reflexivity|]. simpl.
  rewrite fold_row_step_concat.
  - reflexivity.
  - split; [discriminate|]. constructor; [discriminate|constructor].
Qed.

(** C7: grouping is one pass over the gap boxes: with the rows of the boxes
    read so far, the next box joins the current (last) row when its vertical
    intersection with the last box of that row exceeds half the shorter of
    the two heights, and opens a new row otherwise; the extents
    [0.10,0.14] and [0.11,0.15] share a row and [0.30,0.34] opens a new one. *)
Theorem group_rows_single_pass (b0 : Box) (read : list Box) (b : Box) :
  let rows := group_rows (b0 :: read) in
  let current_row := last rows [] in
  let last_box := last current_row b in
  group_rows (b0 :: read ++ [b])
  = (if overlaps_half (fst last_box) (fst b)
     then removelast rows ++ [current_row ++ [b]]
     else rows ++ [[b]])
  /\ In last_box current_row
  /\ In current_row rows
  /\ group_rows three_line_boxes
     = [[box_at 0.1 0.10 0.3 0.14 "a"; box_at 0.4 0.11 0.6 0.15 "b"];
        [box_at 0.1 0.30 0.3 0.34 "c"]].
Proof.
  intros rows current_row last_box.
  assert (Hok : rows_ok rows) by (apply group_rows_ok; discriminate).
  destruct Hok as [Hne Hall].
  assert (Hin : In current_row rows).
  { pose proof (app_removelast_last [] Hne) as Hsplit.
    fold current_row in Hsplit. rewrite Hsplit.
    apply in_or_app. right. now left. }
  assert (Hrow : current_row <> []).
  { rewrite Forall_forall in Hall. now apply Hall. }
  repeat split.
  - change (group_rows (b0 :: read ++ [b]))
      with (fold_left row_step (read ++ [b]) [[b0]]).
    rewrite fold_row_step_snoc. reflexivity.
  - pose proof (app_removelast_last b Hrow) as Hsplit.
    fold last_box in Hsplit. rewrite Hsplit.
    apply in_or_app. right. now left.
  - exact Hin.
Qed.

(** ** Synthetic boxes *)

(** Binary64 multiplication is commutative. *)
Lemma SFmul_comm (prec emax : Z) (x y : spec_float) :
  SFmul prec emax x y = SFmul prec emax y x.
Proof.
  destruct x as [sx|sx| |sx mx ex], y as [sy|sy| |sy my ey]; simpl;
    rewrite ?(xorb_comm sx sy); try reflexivity.
  now rewrite (Pos.mul_comm mx my), (Z.add_comm ex ey).
Qed.

Lemma float_mul_comm (x y : float) : (x * y = y * x)%float.
Proof.
  rewrite <- (SF2Prim_Prim2SF (x * y)), <- (SF2Prim_Prim2SF (y * x)).
  rewrite !mul_spec. unfold SF64mul. now rewrite SFmul_comm.
Qed.

Lemma synthetic_rect_spec (prev : Rect) :
  synthetic_rect prev = spec_synthetic_rect prev.
Proof.
  unfold synthetic_rect, spec_synthetic_rect, pymax.
  destruct (PrimFloat.ltb (y1 prev - y0 prev) 0.02);
    now rewrite (float_mul_comm 0.2).
Qed.

(** C8: a gap with tokens and no box appends exactly one element, whose
    text is the gap tokens joined by single spaces; its rect is the default
    [0.0, 0.0, 1.0, 0.1] when nothing was emitted before, and otherwise the
    rect computed from the previous element's rect with the minimum height
    0.02, the 0.2 spacing, the [0.05, 0.95] extent and the clamp at 0.98. *)
Theorem orphan_tokens_get_one_synthetic_box
    (gap_tokens : list string) (final_output : list Box) :
  gap_tokens <> [] ->
  fill_gap gap_tokens [] final_output
  = Some (final_output
          ++ [(match prior_rect final_output with
               | Some prev => spec_synthetic_rect prev
               | None => mkRect 0 0 1 0.1
               end,
               join " " gap_tokens)]).
Proof.
  intros Hne. unfold fill_gap, prior_rect.
  destruct gap_tokens as [|t ts]; [congruence|]. simpl is_nil. cbv iota.
  destruct final_output as [|e rest]; [reflexivity|].
  now rewrite synthetic_rect_spec.
Qed.

Lemma orphan_tokens_get_one_synthetic_box_witness :
  fill_gap ["world"; "again"] [] [box_at 0.1 0.1 0.5 0.2 "Hello"]
  = Some ([box_at 0.1 0.1 0.5 0.2 "Hello"]
          ++ [(match prior_rect [box_at 0.1 0.1 0.5 0.2 "Hello"] with
               | Some prev => spec_synthetic_rect prev
               | None => mkRect 0 0 1 0.1
               end,
               join " " ["world"; "again"])]).
Proof.
  apply (orphan_tokens_get_one_synthetic_box ["world"; "again"]
           [box_at 0.1 0.1 0.5 0.2 "Hello"]).
  discriminate.
Defined.

(** The scenarios of the specification: a full match followed by an orphan
    token, a page with no detection at all, and a clamped box at the bottom. *)
Example scenario_full_match :
  align_text fuzz_ratio [box_at 0.1 0.1 0.5 0.2 "Helo"] (LlmStr "Hello world")
  = Some [(mkRect 0.1 0.1 0.5 0.2, "Hello");
          (mkRect 0.05 (0.2 + 0.2 * (0.2 - 0.1)) 0.95
             (0.2 + 0.2 * (0.2 - 0.1) + (0.2 - 0.1)), "world")].
Proof. reflexivity. Qed.

Example scenario_empty_detector_output :
  align_text fuzz_ratio [] (LlmStr "Some text")
  = Some [(mkRect 0 0 1 0.1, "Some text")].
Proof. reflexivity. Qed.

Example scenario_clamped_bottom :
  spec_synthetic_rect (mkRect 0.1 0.9 0.5 0.97) = mkRect 0.05 0.91 0.95 0.98.
Proof. reflexivity. Qed.

(** ** Zero total width *)

(** C5: no division happens when the total width is zero, but the tokens do
    not go to a single row: on two zero-width rows every row receives all
    the gap tokens, so two elements are emitted. *)
Theorem zero_width_rows_each_get_all_tokens :
  group_rows thin_boxes = [[box_at 0.1 0.1 0.1 0.2 "a"]; [box_at 0.1 0.5 0.1 0.6 "b"]]
  /\ option_map total_width (row_widths (group_rows thin_boxes)) = Some 0%float
  /\ fill_gap ["xyz"; "qrs"] thin_boxes []
     = Some [(mkRect 0.1 0.1 0.1 0.2, "xyz qrs"); (mkRect 0.1 0.5 0.1 0.6, "xyz qrs")]
  /\ align_text fuzz_ratio thin_boxes (LlmStr "xyz qrs")
     = Some [(mkRect 0.1 0.1 0.1 0.2, "xyz qrs"); (mkRect 0.1 0.5 0.1 0.6, "xyz qrs")].
Proof. repeat split. Qed.

(** With a zero total width the chunk of a row is the whole gap, whatever
    the row: no ratio is computed. *)
Lemma take_chunk_zero_width (gap_tokens : list string) (widths : list float)
    (total : float) (nrows i : nat) (token_start : Z) :
  PrimFloat.eqb total 0 = true ->
  take_chunk gap_tokens widths total nrows i token_start
  = Some (gap_tokens, token_start).
Proof. intros H. unfold take_chunk. now rewrite H. Qed.

(** ** The box extractor *)

(** Counterexample to C4 as stated: a detection reduced to a point and
    carrying blank text comes out of [get_structured_text] as a box; it is
    not dropped. *)
Lemma degenerate_detection_is_kept :
  get_structured_text 100 100 [point_detection]
  = Some [(mkRect 0.1 0.1 0.1 0.1, "  ")]
  /\ forallb degenerate [(mkRect 0.1 0.1 0.1 0.1, "  ")] = true.
Proof. split; reflexivity. Qed.

(** C4, as the code has it: on an image of non-zero size and polygons with
    at least one point, [get_structured_text] returns one box per detection,
    in the order of the detections, each with the normalised rect of its
    polygon and the recognised text unchanged; no detection is dropped. *)
Theorem get_structured_text_keeps_every_detection
    (img_w img_h : Z) (results : list Detection) :
  img_w <> 0%Z -> img_h <> 0%Z ->
  Forall (fun d => fst (fst d) <> []) results ->
  exists structured_data,
    get_structured_text img_w img_h results = Some structured_data
    /\ Forall2 (fun d b =>
                  detection_rect img_w img_h (fst (fst d)) = Some (fst b)
                  /\ snd b = snd (fst d))
         results structured_data.
Proof.
  intros Hw Hh Hall. induction Hall as [|[[bbox text] conf] rest Hd _ IH].
  - exists []. split; [reflexivity|constructor].
  - destruct IH as (sd & Hsd & Hrel). simpl in Hd.
    assert (Hrect : exists r, detection_rect img_w img_h bbox = Some r).
    { unfold detection_rect. destruct bbox as [|p ps]; [congruence|]. simpl.
      destruct (Z.eqb_spec img_w 0); [congruence|].
      destruct (Z.eqb_spec img_h 0); [congruence|].
      simpl. eauto. }
    destruct Hrect as [r Hr].
    exists ((r, text) :: sd). split.
    + simpl. now rewrite Hr, Hsd.
    + constructor; [|assumption]. simpl. auto.
Qed.

Lemma get_structured_text_keeps_every_detection_witness :
  exists structured_data,
    get_structured_text 100 100 [point_detection] = Some structured_data
    /\ Forall2 (fun d b =>
                  detection_rect 100 100 (fst (fst d)) = Some (fst b)
                  /\ snd b = snd (fst d))
         [point_detection] structured_data.
Proof.
  apply (get_structured_text_keeps_every_detection 100 100 [point_detection]).
  - discriminate.
  - discriminate.
  - constructor; [discriminate|constructor].
Defined.

(** ** Token conservation *)

Lemma token_seq_app (out out' : list Box) :
  token_seq (out ++ out') = token_seq out ++ token_seq out'.
Proof. apply flat_map_app. Qed.

Lemma union_rect_some (row : list Box) :
  row <> [] -> exists r, union_rect row = Some r.
Proof.
  destruct row as [|b row]; [congruence|]. intros _.
  unfold union_rect. simpl. eauto.
Qed.

Lemma row_width_some (row : list Box) :
  row <> [] -> exists w, row_width row = Some w.
Proof.
  destruct row as [|b row]; [congruence|]. intros _.
  unfold row_width. simpl. eauto.
Qed.

Lemma row_widths_some (rows : list (list Box)) :
  Forall (fun row => row <> []) rows ->
  exists ws, row_widths rows = Some ws /\ List.length ws = List.length rows.
Proof.
  induction 1 as [|row rows Hrow _ IH]; simpl.
  - now exists [].
  - destruct (row_width_some row Hrow) as [w Hw].
    destruct IH as (ws & Hws & Hlen).
    rewrite Hw, Hws. exists (w :: ws). simpl. auto.
Qed.

(** An emitted chunk adds its tokens, and nothing else, to the words of the
    output. *)
Lemma emit_chunk_tokens (row : list Box) (chunk : list string) (out : list Box) :
  row <> [] -> words chunk ->
  exists out',
    emit_chunk row chunk out = Some out'
    /\ token_seq out' = token_seq out ++ chunk.
Proof.
  intros Hrow Hw. unfold emit_chunk.
  destruct chunk as [|t chunk]; simpl is_nil; cbv iota.
  - exists out. now rewrite app_nil_r.
  - destruct (union_rect_some row Hrow) as [r Hr]. rewrite Hr.
    eexists. split; [reflexivity|].
    rewrite token_seq_app. f_equal. unfold token_seq.
    cbn [flat_map snd]. rewrite app_nil_r.
    destruct (50 <? _)%nat.
    + exact (split_join (t :: chunk) true Hw).
    + rewrite <- (string_app_empty_r (join " " (t :: chunk))).
      exact (split_join (t :: chunk) false Hw).
Qed.

(** Two adjacent slices with bounds in order make the slice from the first
    bound. *)
Lemma slice_then_rest {A : Type} (l : list A) (start count : Z) :
  (0 <= start)%Z -> (0 <= count)%Z ->
  slice l start (start + count) ++ slice_from l (start + count)
  = slice_from l start.
Proof.
  intros Hs Hc. unfold slice, slice_from, clamp.
  destruct (Z.ltb_spec start 0); [lia|].
  destruct (Z.ltb_spec (start + count) 0); [lia|].
  set (s := Nat.min (List.length l) (Z.to_nat start)).
  set (e := Nat.min (List.length l) (Z.to_nat (start + count))).
  assert (Hse : s <= e) by (subst s e; lia).
  replace (skipn e l) with (skipn (e - s) (skipn s l)).
  - apply firstn_skipn.
  - rewrite skipn_skipn. f_equal. lia.
Qed.

Lemma slice_from_0 {A : Type} (l : list A) : slice_from l 0 = l.
Proof. unfold slice_from, clamp. simpl. now rewrite Nat.min_0_r. Qed.

Lemma words_firstn (n : nat) (l : list string) : words l -> words (firstn n l).
Proof.
  intros H. revert n. induction H as [|x l Hx _ IH]; intros [|n]; simpl.
  - constructor.
  - constructor.
  - constructor.
  - constructor; [assumption|apply IH].
Qed.

Lemma words_skipn (n : nat) (l : list string) : words l -> words (skipn n l).
Proof.
  intros H. revert n. induction H as [|x l Hx Hl IH]; intros [|n]; simpl.
  - constructor.
  - constructor.
  - now constructor.
  - apply IH.
Qed.

Lemma words_slice (l : list string) (start stop : Z) :
  words l -> words (slice l start stop).
Proof. intros H. unfold slice. now apply words_firstn, words_skipn. Qed.

Lemma words_slice_from (l : list string) (start : Z) :
  words l -> words (slice_from l start).
Proof. intros H. unfold slice_from. now apply words_skipn. Qed.

Section AssignLoop.

Variables (gap_tokens : list string) (widths : list float) (total : float).
Variable nrows : nat.
Hypothesis Hwords : words gap_tokens.
Hypothesis Hrows : nrows <= List.length widths.

Lemma assign_loop_shares :
  PrimFloat.eqb total 0 = false ->
  forallb (share_ok (List.length gap_tokens) total) widths = true ->
  forall (rows : list (list Box)) (i : nat) (token_start : Z) (out : list Box),
    rows <> [] -> Forall (fun row => row <> []) rows ->
    i + List.length rows = nrows -> (0 <= token_start)%Z ->
    exists out',
      assign_loop gap_tokens widths total nrows rows i token_start out = Some out'
      /\ token_seq out' = token_seq out ++ slice_from gap_tokens token_start.
Proof.
  intros Hnz Hshares.
  induction rows as [|row rest IH]; intros i ts out Hne Hall Hi Hts;
    [congruence|].
  apply Forall_cons_iff in Hall. destruct Hall as [Hrow Hrest].
  simpl in Hi.
  assert (Hshare : share_ok (List.length gap_tokens) total (nth i widths 0%float) = true).
  { rewrite forallb_forall in Hshares. apply Hshares, nth_In. lia. }
  unfold share_ok in Hshare.
  simpl. unfold take_chunk. rewrite Hnz.
  destruct (py_round _) as [count|]; [|discriminate].
  apply Z.leb_le in Hshare.
  set (count' := if ((count =? 0) && _ && _)%Z then 1%Z else count).
  assert (Hcount : (0 <= count')%Z) by (subst count'; destruct (_ && _); lia).
  destruct rest as [|row' rest'].
  - simpl in Hi. replace (i =? nrows - 1)%nat with true
      by (symmetry; apply Nat.eqb_eq; lia).
    destruct (emit_chunk_tokens row (slice_from gap_tokens ts) out Hrow
                (words_slice_from _ _ Hwords)) as (out1 & Hemit & Htok).
    rewrite Hemit. exists out1. now split.
  - replace (i =? nrows - 1)%nat with false
      by (symmetry; apply Nat.eqb_neq; simpl in Hi; lia).
    destruct (emit_chunk_tokens row (slice gap_tokens ts (ts + count')) out Hrow
                (words_slice _ _ _ Hwords)) as (out1 & Hemit & Htok).
    rewrite Hemit.
    destruct (IH (S i) (ts + count')%Z out1) as (out' & Hloop & Htok');
      [discriminate|assumption|simpl in *; lia|lia|].
    exists out'. split; [exact Hloop|].
    rewrite Htok', Htok, <- app_assoc. f_equal.
    now apply slice_then_rest.
Qed.

Lemma assign_loop_single_zero (row : list Box) (out : list Box) :
  PrimFloat.eqb total 0 = true -> row <> [] ->
  exists out',
    assign_loop gap_tokens widths total nrows [row] 0 0 out = Some out'
    /\ token_seq out' = token_seq out ++ gap_tokens.
Proof.
  intros Hz Hrow. simpl. rewrite take_chunk_zero_width by assumption.
  destruct (emit_chunk_tokens row gap_tokens out Hrow Hwords)
    as (out1 & Hemit & Htok).
  rewrite Hemit. now exists out1.
Qed.

End AssignLoop.

(** A gap adds exactly its tokens to the words of the output. *)
Lemma fill_gap_tokens (gap_tokens : list string) (gap_boxes : list Box)
    (out : list Box) :
  words gap_tokens ->
  is_nil gap_tokens || is_nil gap_boxes || regular_gap gap_tokens gap_boxes = true ->
  exists out',
    fill_gap gap_tokens gap_boxes out = Some out'
    /\ token_seq out' = token_seq out ++ gap_tokens.
Proof.
  intros Hwords Hreg. unfold fill_gap.
  destruct gap_tokens as [|t toks] eqn:Etoks; simpl is_nil in *; cbv iota.
  { exists out. now rewrite app_nil_r. }
  rewrite <- Etoks in *. clear Etoks.
  destruct gap_boxes as [|b boxes] eqn:Eboxes; simpl is_nil in *; simpl negb;
    cbv iota.
  - assert (Hsplit : split (join " " gap_tokens) = gap_tokens).
    { rewrite <- (string_app_empty_r (join " " gap_tokens)).
      exact (split_join gap_tokens false Hwords). }
    destruct out as [|e out0]; eexists; (split; [reflexivity|]);
      rewrite token_seq_app; f_equal; unfold token_seq; cbn [flat_map snd];
      now rewrite app_nil_r.
  - rewrite <- Eboxes in *.
    assert (Hok : rows_ok (group_rows gap_boxes))
      by (apply group_rows_ok; subst gap_boxes; discriminate).
    destruct Hok as [Hne Hall].
    simpl in Hreg. unfold regular_gap in Hreg.
    destruct (row_widths_some _ Hall) as (ws & Hws & Hlen).
    rewrite Hws in *.
    destruct (PrimFloat.eqb (total_width ws) 0) eqn:Hz.
    + apply Nat.leb_le in Hreg.
      destruct (group_rows gap_boxes) as [|row [|row' rows']] eqn:Erows;
        [congruence| |simpl in Hlen; lia].
      inversion Hall; subst.
      apply assign_loop_single_zero; assumption.
    + destruct (assign_loop_shares gap_tokens ws (total_width ws)
                  (List.length (group_rows gap_boxes)) Hwords
                  ltac:(lia) Hz Hreg (group_rows gap_boxes) 0 0%Z out)
        as (out' & Hloop & Htok); trivial; try lia.
      exists out'. split; [exact Hloop|].
      now rewrite Htok, slice_from_0.
Qed.

Lemma firstn_split_at {A : Type} (l : list A) (p k : nat) :
  firstn p l ++ firstn k (skipn p l) = firstn (p + k) l.
Proof.
  revert l. induction p as [|p IH]; intros l; simpl; [reflexivity|].
  destruct l as [|x l]; simpl.
  - now rewrite firstn_nil.
  - now rewrite IH.
Qed.

Lemma firstn_succ_nth {A : Type} (l : list A) (c : nat) (d : A) :
  c < List.length l -> firstn (S c) l = firstn c l ++ [nth c l d].
Proof.
  revert l. induction c as [|c IH]; intros [|x l] H; simpl in *; try lia.
  - reflexivity.
  - f_equal. apply IH. lia.
Qed.

Section Reconstruct.

Variables (structured_data : list Box) (llm_tokens : list string).
Hypothesis Hwords : words llm_tokens.

Lemma reconstruct_tokens (matches : list Anchor) :
  forall (prev_box_idx prev_llm_idx : Z) (out : list Box),
    (-1 <= prev_llm_idx)%Z ->
    Forall (entry_ok llm_tokens) matches ->
    ascending prev_llm_idx matches ->
    token_seq out = firstn (Z.to_nat (prev_llm_idx + 1)) llm_tokens ->
    regular_gaps structured_data llm_tokens matches prev_box_idx prev_llm_idx
    = true ->
    exists out',
      reconstruct structured_data llm_tokens matches prev_box_idx prev_llm_idx out
      = Some out'
      /\ token_seq out'
         = firstn (Z.to_nat (last_llm prev_llm_idx matches + 1)) llm_tokens.
Proof.
  induction matches as [|a rest IH];
    intros prev_box prev_llm out Hprev Hok Hasc Hout Hreg.
  - exists out. now split.
  - apply Forall_cons_iff in Hok. destruct Hok as [Ha Hrest].
    destruct Hasc as [Hlt Hasc].
    simpl in Hreg. apply andb_true_iff in Hreg. destruct Hreg as [Hgap Hreg].
    set (c := llm_idx a) in *.
    assert (Hc : c <= List.length llm_tokens)
      by (destruct Ha as [(? & _)|(? & _)]; lia).
    set (p := Z.to_nat (prev_llm + 1)) in *.
    assert (Hp : (prev_llm + 1 = Z.of_nat p)%Z) by (subst p; lia).
    assert (Hpc : p <= c) by lia.
    assert (Hgap_eq : slice llm_tokens (prev_llm + 1) (Z.of_nat c)
                      = firstn (c - p) (skipn p llm_tokens)).
    { rewrite Hp. apply slice_of_nat. lia. }
    simpl reconstruct. fold c.
    destruct (fill_gap_tokens _ _ out (words_slice _ _ _ Hwords) Hgap)
      as (out1 & Hfill & Htok1).
    rewrite Hfill.
    assert (Hseq1 : token_seq out1 = firstn c llm_tokens).
    { rewrite Htok1, Hout, Hgap_eq, firstn_split_at. f_equal. lia. }
    set (out2 := match text a with
                 | Some t => match rect a with
                             | Some r => out1 ++ [(r, t)]
                             | None => out1
                             end
                 | None => out1
                 end).
    assert (Hseq2 : token_seq out2
                    = firstn (Z.to_nat (Z.of_nat c + 1)) llm_tokens).
    { replace (Z.to_nat (Z.of_nat c + 1)) with (S c) by lia.
      subst out2. destruct Ha as [(Hlen & Htext & r & Hrect)|(Hlen & Htext)].
      - fold c in Hlen, Htext.
        rewrite Htext, Hrect, token_seq_app, Hseq1.
        rewrite (firstn_succ_nth _ _ EmptyString Hlen). f_equal.
        unfold token_seq. cbn [flat_map snd]. rewrite app_nil_r.
        apply split_word.
        unfold words in Hwords. rewrite Forall_forall in Hwords.
        apply Hwords, nth_In. exact Hlen.
      - rewrite Htext, Hseq1. fold c in Hlen.
        rewrite !firstn_all2; trivial; lia. }
    destruct (IH (Z.of_nat (box_idx a)) (Z.of_nat c) out2)
      as (out' & Hrec & Htok'); trivial; try lia.
    exists out'. split; assumption.
Qed.

End Reconstruct.

(** A page without any box is regular: no gap has a box. *)
Lemma regular_gaps_no_box (llm_tokens : list string) (matches : list Anchor) :
  forall prev_box_idx prev_llm_idx : Z,
    regular_gaps [] llm_tokens matches prev_box_idx prev_llm_idx = true.
Proof.
  induction matches as [|a rest IH]; intros pb pl; simpl; [reflexivity|].
  rewrite IH.
  assert (Hnone : forall start stop : Z, slice (@nil Box) start stop = []).
  { intros start stop. unfold slice. rewrite skipn_nil. apply firstn_nil. }
  rewrite Hnone. simpl. now rewrite orb_true_r.
Qed.

Lemma regular_page_no_box (scorer : string -> string -> float)
    (llm_tokens : list string) :
  regular_page scorer [] llm_tokens = true.
Proof. apply regular_gaps_no_box. Qed.

Lemma ascending_anchors (tokens : list string) (sd : list Box)
    (anchors : list Anchor) (prev : Z) :
  StronglySorted anchor_lt anchors ->
  Forall (fun a => (prev < Z.of_nat (llm_idx a))%Z
                   /\ llm_idx a < List.length tokens) anchors ->
  (prev < Z.of_nat (List.length tokens))%Z ->
  ascending prev (anchors ++ [sentinel sd tokens]).
Proof.
  intros Hsorted. revert prev.
  induction Hsorted as [|a l Hs IH Ha]; intros prev Hall Hprev; simpl.
  - auto.
  - apply Forall_cons_iff in Hall. destruct Hall as [[Hlt Hlen] Hall].
    split; [assumption|]. apply IH; [|lia].
    rewrite Forall_forall in *. intros b Hb.
    destruct (Ha b Hb) as [_ Hllm]. destruct (Hall b Hb) as [_ Hblen].
    split; [lia|assumption].
Qed.

Lemma last_llm_sentinel (tokens : list string) (sd : list Box)
    (anchors : list Anchor) (prev : Z) :
  last_llm prev (anchors ++ [sentinel sd tokens]) = Z.of_nat (List.length tokens).
Proof. unfold last_llm. now rewrite fold_left_app. Qed.

Lemma falsy_no_token (llm_text : LlmText) :
  falsy llm_text = true -> split (full_text llm_text) = [].
Proof.
  destruct llm_text as [|s|lines]; simpl.
  - reflexivity.
  - now destruct s.
  - now destruct lines.
Qed.

(** On an empty content the result is the passthrough: it carries the
    words of the detector, and the content has no token. *)
Lemma passthrough_keeps_detector_words :
  exists out,
    align_text fuzz_ratio [box_at 0.1 0.1 0.5 0.2 "foo"] (LlmStr EmptyString)
    = Some out
    /\ token_seq out = ["foo"]
    /\ token_seq out <> split (full_text (LlmStr EmptyString)).
Proof.
  exists [box_at 0.1 0.1 0.5 0.2 "foo"]. repeat split. discriminate.
Qed.

(** C3: on a page that satisfies the data model, with one accepted anchor
    followed by a gap of two zero-width boxes on two lines, the tokens of the
    gap come out twice: the words of the result are not the tokens of the
    content.  The page is not regular. *)
Theorem zero_width_gap_repeats_tokens :
  find_anchors fuzz_ratio thin_gap_page (split "Hello big world")
  = [mkAnchor 0 0 (Some "Hello") (Some (mkRect 0.1 0.1 0.3 0.2))]
  /\ align_text fuzz_ratio thin_gap_page (LlmStr "Hello big world")
     = Some [(mkRect 0.1 0.1 0.3 0.2, "Hello");
             (mkRect 0.1 0.3 0.1 0.4, "big world");
             (mkRect 0.1 0.5 0.1 0.6, "big world")]
  /\ token_seq [(mkRect 0.1 0.1 0.3 0.2, "Hello");
                (mkRect 0.1 0.3 0.1 0.4, "big world");
                (mkRect 0.1 0.5 0.1 0.6, "big world")]
     = ["Hello"; "big"; "world"; "big"; "world"]
  /\ split (full_text (LlmStr "Hello big world")) = ["Hello"; "big"; "world"]
  /\ regular_page fuzz_ratio thin_gap_page (split "Hello big world") = false.
Proof. repeat split. Qed.

(** X19: when the content has at least one token and every gap that has
    both tokens and boxes is regular, [align_text] returns a result, and the
    words of its texts, read in output order, are exactly the tokens of the
    content in their order. *)
Theorem token_conservation
    (scorer : string -> string -> float) (structured_data : list Box)
    (llm_text : LlmText) :
  split (full_text llm_text) <> [] ->
  regular_page scorer structured_data (split (full_text llm_text)) = true ->
  exists out,
    align_text scorer structured_data llm_text = Some out
    /\ token_seq out = split (full_text llm_text).
Proof.
  intros Hne Hreg. unfold align_text.
  destruct (falsy llm_text) eqn:Hf.
  { apply falsy_no_token in Hf. congruence. }
  pose proof (split_words (full_text llm_text)) as Hwords.
  remember (split (full_text llm_text)) as tokens eqn:Etok.
  assert (Hnil : is_nil tokens = false) by (destruct tokens; [congruence|reflexivity]).
  rewrite Hnil. fold (words tokens) in Hwords.
  destruct (find_anchors_inv scorer structured_data tokens)
    as (Hcur & Hok & Hsorted).
  fold (find_anchors scorer structured_data tokens) in Hok, Hsorted.
  set (anchors := find_anchors scorer structured_data tokens) in *.
  destruct (reconstruct_tokens structured_data tokens Hwords
              (anchors ++ [sentinel structured_data tokens]) (-1) (-1) [])
    as (out & Hrec & Htok).
  - lia.
  - apply Forall_app. split.
    + eapply Forall_impl; [|exact Hok].
      intros a (_ & Hllm & Htext & Hrect). left. repeat split; trivial. lia.
    + constructor; [|constructor]. right. now split.
  - apply ascending_anchors; [assumption| |lia].
    eapply Forall_impl; [|exact Hok].
    intros a (_ & Hllm & _). lia.
  - reflexivity.
  - exact Hreg.
  - rewrite Hrec. rewrite last_llm_sentinel in Htok.
    rewrite firstn_all2 in Htok by lia.
    destruct out as [|e out].
    + simpl in Htok. destruct tokens; [congruence|discriminate].
    + simpl. exists (e :: out). now split.
Qed.

(** The page [gapped_page] is regular: one anchor, then a gap of three
    tokens over two rows of widths 0.4 and 0.2. *)
Lemma token_conservation_witness :
  exists out,
    align_text fuzz_ratio gapped_page (LlmStr "Hello big wide world") = Some out
    /\ token_seq out = split (full_text (LlmStr "Hello big wide world")).
Proof.
  apply (token_conservation fuzz_ratio gapped_page (LlmStr "Hello big wide world")).
  - discriminate.
  - reflexivity.
Defined.

Example gapped_page_result :
  align_text fuzz_ratio gapped_page (LlmStr "Hello big wide world")
  = Some [(mkRect 0.1 0.1 0.3 0.2, "Hello");
          (mkRect 0.1 0.3 0.5 0.4, "big wide");
          (mkRect 0.1 0.5 0.3 0.6, "world")].
Proof. reflexivity. Qed.

(** ** The result is never empty on a page with boxes and tokens *)

Lemma emit_chunk_grows (row : list Box) (chunk : list string) (out out' : list Box) :
  emit_chunk row chunk out = Some out' ->
  (out <> [] \/ chunk <> []) -> out' <> [].
Proof.
  unfold emit_chunk. destruct chunk as [|t chunk]; simpl is_nil; cbv iota.
  - intros H [Hout|Hc]; [|congruence]. now inversion H; subst.
  - destruct (union_rect row); [|discriminate].
    intros H _. inversion H; subst.
    intros E. apply app_eq_nil in E. destruct E; discriminate.
Qed.

Lemma slice_nonempty {A : Type} (l : list A) (start stop : Z) :
  l <> [] ->
  (start < Z.of_nat (List.length l))%Z ->
  (Z.of_nat (List.length l) <= stop)%Z ->
  slice l start stop <> [].
Proof.
  intros Hl Hs He. unfold slice.
  assert (Hlen : 0 < List.length l) by (destruct l; [congruence|simpl; lia]).
  assert (Hcs : clamp (List.length l) start < List.length l)
    by (unfold clamp; destruct (Z.ltb_spec start 0); lia).
  assert (Hce : clamp (List.length l) stop = List.length l)
    by (unfold clamp; destruct (Z.ltb_spec stop 0); lia).
  rewrite Hce. intros E. apply (f_equal (@List.length A)) in E.
  rewrite length_firstn, length_skipn in E. simpl in E. lia.
Qed.

Lemma slice_from_nonempty {A : Type} (l : list A) (start : Z) :
  l <> [] ->
  (start < Z.of_nat (List.length l))%Z -> slice_from l start <> [].
Proof.
  intros Hl Hs. unfold slice_from.
  assert (Hlen : 0 < List.length l) by (destruct l; [congruence|simpl; lia]).
  assert (Hcs : clamp (List.length l) start < List.length l)
    by (unfold clamp; destruct (Z.ltb_spec start 0); lia).
  intros E. apply (f_equal (@List.length A)) in E.
  rewrite length_skipn in E. simpl in E. lia.
Qed.

(** While nothing has been emitted, [token_start] stays below the number of
    gap tokens, so the last row at the latest emits something. *)
Lemma assign_loop_grows (gap_tokens : list string) (widths : list float)
    (total : float) (nrows : nat) (rows : list (list Box)) :
  gap_tokens <> [] ->
  forall (i : nat) (token_start : Z) (out out' : list Box),
    i + List.length rows = nrows ->
    out <> [] \/ (rows <> [] /\ (token_start < Z.of_nat (List.length gap_tokens))%Z) ->
    assign_loop gap_tokens widths total nrows rows i token_start out = Some out' ->
    out' <> [].
Proof.
  intros Hne. induction rows as [|row rest IH]; intros i ts out out' Hi Hinv H.
  - simpl in H. inversion H; subst. destruct Hinv as [Hout|[Hrows _]]; congruence.
  - simpl in H, Hi.
    destruct (take_chunk gap_tokens widths total nrows i ts)
      as [[chunk ts']|] eqn:Htake; [|discriminate].
    destruct (emit_chunk row chunk out) as [out1|] eqn:Hemit; [|discriminate].
    apply (IH (S i) ts' out1 out'); [lia| |exact H].
    destruct Hinv as [Hout|[_ Hts]].
    { left. eapply emit_chunk_grows; eauto. }
    unfold take_chunk in Htake.
    destruct (PrimFloat.eqb total 0).
    { inversion Htake; subst. left. eapply emit_chunk_grows; eauto. }
    destruct (py_round _) as [count|]; [|discriminate].
    set (count' := if ((count =? 0) && _ && _)%Z then 1%Z else count) in Htake.
    destruct (Nat.eqb_spec i (nrows - 1)) as [Hlast|Hmid].
    + inversion Htake; subst chunk ts'. left.
      eapply emit_chunk_grows; [exact Hemit|]. right.
      now apply slice_from_nonempty.
    + inversion Htake; subst chunk ts'.
      destruct (Z.lt_ge_cases (ts + count') (Z.of_nat (List.length gap_tokens)))
        as [Hlt|Hge].
      * destruct (slice gap_tokens ts (ts + count')) eqn:Echunk.
        -- right. split; [|exact Hlt]. destruct rest; [simpl in Hi; lia|discriminate].
        -- left. eapply emit_chunk_grows; [exact Hemit|]. right. discriminate.
      * left. eapply emit_chunk_grows; [exact Hemit|]. right.
        now apply slice_nonempty.
Qed.

Lemma fill_gap_grows (gap_tokens : list string) (gap_boxes : list Box)
    (out out' : list Box) :
  fill_gap gap_tokens gap_boxes out = Some out' ->
  (out <> [] \/ gap_tokens <> []) -> out' <> [].
Proof.
  unfold fill_gap. destruct gap_tokens as [|t toks] eqn:Etoks; simpl is_nil; cbv iota.
  { intros H [Hout|Hc]; [|congruence]. now inversion H; subst. }
  rewrite <- Etoks. intros H _.
  assert (Hne : gap_tokens <> []) by (subst gap_tokens; discriminate).
  destruct gap_boxes as [|b boxes] eqn:Eboxes; simpl is_nil in H; simpl negb in H;
    cbv iota in H.
  - destruct out; inversion H; subst; simpl; discriminate.
  - rewrite <- Eboxes in H.
    destruct (row_widths (group_rows gap_boxes)) as [ws|]; [|discriminate].
    eapply (assign_loop_grows gap_tokens ws _ _ (group_rows gap_boxes) Hne 0 0%Z);
      [reflexivity| |exact H].
    right. split.
    + apply group_rows_ok. subst gap_boxes. discriminate.
    + destruct gap_tokens; [congruence|simpl; lia].
Qed.

Lemma reconstruct_grows (structured_data : list Box) (llm_tokens : list string)
    (matches : list Anchor) :
  forall (prev_box_idx prev_llm_idx : Z) (out out' : list Box),
    out <> [] ->
    reconstruct structured_data llm_tokens matches prev_box_idx prev_llm_idx out
    = Some out' ->
    out' <> [].
Proof.
  induction matches as [|a rest IH]; intros pb pl out out' Hout H; simpl in H.
  - now inversion H; subst.
  - destruct (fill_gap _ _ out) as [out1|] eqn:Hfill; [|discriminate].
    assert (H1 : out1 <> []) by (eapply fill_gap_grows; eauto).
    eapply IH; [|exact H].
    destruct (text a); [destruct (rect a)|]; trivial.
    intros E. apply app_eq_nil in E. destruct E; discriminate.
Qed.

Lemma slice_whole {A : Type} (l : list A) :
  slice l (-1 + 1) (Z.of_nat (List.length l)) = l.
Proof.
  change (-1 + 1)%Z with (Z.of_nat 0). rewrite slice_of_nat by lia.
  rewrite Nat.sub_0_r. simpl. apply firstn_all.
Qed.

(** X17: the branch of source lines 248-250 is never taken: with at least
    one box and one token, what [align_text] returns is the reconstruction,
    and it is not empty. *)
Theorem full_page_fallback_unreachable
    (scorer : string -> string -> float) (structured_data : list Box)
    (llm_text : LlmText) (out : list Box) :
  structured_data <> [] ->
  split (full_text llm_text) <> [] ->
  align_text scorer structured_data llm_text = Some out ->
  reconstruct structured_data (split (full_text llm_text))
    (find_anchors scorer structured_data (split (full_text llm_text))
     ++ [sentinel structured_data (split (full_text llm_text))]) (-1) (-1) []
  = Some out
  /\ out <> [].
Proof.
  intros Hsd Htok H. unfold align_text in H.
  destruct (falsy llm_text) eqn:Hf.
  { apply falsy_no_token in Hf. congruence. }
  remember (split (full_text llm_text)) as tokens eqn:Etok.
  assert (Hnil : is_nil tokens = false) by (destruct tokens; [congruence|reflexivity]).
  rewrite Hnil in H.
  destruct (find_anchors_inv scorer structured_data tokens) as (_ & Hok & _).
  fold (find_anchors scorer structured_data tokens) in Hok.
  destruct (reconstruct _ _ _ _ _ _) as [final_output|] eqn:Hrec; [|discriminate].
  assert (Hfinal : final_output <> []).
  { destruct (find_anchors scorer structured_data tokens) as [|a rest].
    - simpl in Hrec. rewrite !slice_whole in Hrec.
      destruct (fill_gap tokens structured_data []) as [out1|] eqn:Hfill;
        [|discriminate].
      inversion Hrec; subst. eapply fill_gap_grows; eauto.
    - simpl in Hrec.
      destruct (fill_gap _ _ []) as [out1|] eqn:Hfill; [|discriminate].
      apply Forall_cons_iff in Hok.
      destruct Hok as [(_ & _ & Htext & r & Hrect) _].
      rewrite Htext, Hrect in Hrec.
      eapply reconstruct_grows; [|exact Hrec].
      intros E. apply app_eq_nil in E. destruct E; discriminate. }
  destruct final_output as [|e rest]; [congruence|].
  simpl in H. inversion H; subst. split; [reflexivity|discriminate].
Qed.

(** ** Rows of zero total width, in general *)

(** X18: with a zero total width every row emits one element, and each
    element carries all the gap tokens. *)
Lemma assign_loop_zero_width_per_row (gap_tokens : list string)
    (widths : list float) (total : float) (nrows : nat) (rows : list (list Box)) :
  PrimFloat.eqb total 0 = true ->
  gap_tokens <> [] -> words gap_tokens ->
  Forall (fun row => row <> []) rows ->
  forall (i : nat) (token_start : Z) (out : list Box),
  exists elems,
    assign_loop gap_tokens widths total nrows rows i token_start out
    = Some (out ++ elems)
    /\ List.length elems = List.length rows
    /\ Forall (fun e => split (snd e) = gap_tokens) elems.
Proof.
  intros Hz Hne Hwords Hall.
  induction Hall as [|row rest Hrow _ IH]; intros i ts out; simpl.
  - exists []. rewrite app_nil_r. repeat split. constructor.
  - rewrite take_chunk_zero_width by assumption.
    assert (Hnil : is_nil gap_tokens = false)
      by (destruct gap_tokens; [congruence|reflexivity]).
    unfold emit_chunk. rewrite Hnil.
    destruct (union_rect_some row Hrow) as [r Hr]. rewrite Hr.
    set (e := (r, _)).
    destruct (IH (S i) ts (out ++ [e])) as (elems & Hloop & Hlen & Hsplit).
    exists (e :: elems). rewrite Hloop, <- app_assoc. repeat split.
    + simpl. now rewrite Hlen.
    + constructor; [|assumption]. subst e. cbn [snd].
      destruct (50 <? _)%nat.
      * exact (split_join gap_tokens true Hwords).
      * rewrite <- (string_app_empty_r (join " " gap_tokens)).
        exact (split_join gap_tokens false Hwords).
Qed.

(** ** The full-page fallback *)

(** C2: one box that matches nothing and one token: no anchor is accepted,
    yet the result is the box carrying the token, not the full-page
    element. *)
Theorem no_anchor_page_is_reconstructed :
  find_anchors fuzz_ratio [box_at 0.1 0.1 0.5 0.2 "zzz"] (split "hello") = []
  /\ align_text fuzz_ratio [box_at 0.1 0.1 0.5 0.2 "zzz"] (LlmStr "hello")
     = Some [(mkRect 0.1 0.1 0.5 0.2, "hello")]
  /\ align_text fuzz_ratio [box_at 0.1 0.1 0.5 0.2 "zzz"] (LlmStr "hello")
     <> Some [(full_page, String.append "hello" newline)].
Proof. repeat split. discriminate. Qed.


(** * Further properties of the code *)

(** ** Lines of a transcription ([perform_ocr]) *)

Lemma split_from_nonempty_cur (s cur : string) :
  is_empty cur = false -> split_from cur s <> [].
Proof.
  revert cur. induction s as [|c s IH]; intros cur Hcur; simpl.
  - rewrite Hcur. discriminate.
  - destruct (is_space c).
    + rewrite Hcur. discriminate.
    + apply IH. rewrite is_empty_app, Hcur. reflexivity.
Qed.

(** A string splits into no token exactly when it is made of white space. *)
Lemma split_nil_iff (s : string) : split s = [] <-> all_space s = true.
Proof.
  unfold split. induction s as [|c s IH]; simpl.
  - tauto.
  - destruct (is_space c) eqn:Hc; simpl.
    + exact IH.
    + split; [|discriminate]. intros H.
      now apply split_from_nonempty_cur in H.
Qed.

Lemma lstrip_all_space (s : string) :
  all_space s = true -> lstrip s = EmptyString.
Proof.
  induction s as [|c s IH]; simpl; [reflexivity|].
  intros H. apply andb_true_iff in H. destruct H as [Hc Hs].
  rewrite Hc. now apply IH.
Qed.

Lemma rstrip_empty_iff (s : string) :
  is_empty (rstrip s) = true <-> all_space s = true.
Proof.
  induction s as [|c s IH]; simpl; [tauto|].
  destruct (is_space c); simpl.
  - destruct (is_empty (rstrip s)) eqn:E; simpl.
    + split; [intros _; now apply IH|reflexivity].
    + split; [discriminate|]. intros H. apply IH in H. discriminate.
  - split; discriminate.
Qed.

Lemma lstrip_preserves_nonspace (s : string) :
  all_space (lstrip s) = all_space s.
Proof.
  induction s as [|c s IH]; simpl; [reflexivity|].
  destruct (is_space c) eqn:Hc; simpl; [exact IH|now rewrite Hc].
Qed.

(** [strip] leaves nothing exactly when the string is made of white space. *)
Lemma strip_empty_iff (s : string) :
  is_empty (strip s) = true <-> all_space s = true.
Proof.
  unfold strip. rewrite rstrip_empty_iff. now rewrite lstrip_preserves_nonspace.
Qed.

(** Reading a white-space character closes the current run. *)
Lemma split_from_app_space (a b cur : string) (c : ascii) :
  is_space c = true ->
  split_from cur (String.append a (String c b)) = split_from cur a ++ split b.
Proof.
  intros Hc. revert cur. induction a as [|x a IH]; intros cur; simpl.
  - rewrite Hc. now destruct (is_empty cur).
  - destruct (is_space x).
    + destruct (is_empty cur); simpl; now rewrite IH.
    + apply IH.
Qed.

Lemma split_lstrip (s : string) : split (lstrip s) = split s.
Proof.
  unfold split. induction s as [|c s IH]; simpl; [reflexivity|].
  destruct (is_space c) eqn:Hc; simpl; [exact IH|now rewrite Hc].
Qed.

Lemma split_from_rstrip (s cur : string) :
  split_from cur (rstrip s) = split_from cur s.
Proof.
  revert cur. induction s as [|c s IH]; intros cur; simpl; [reflexivity|].
  destruct (is_space c) eqn:Hc; simpl.
  - destruct (is_empty (rstrip s)) eqn:E; simpl.
    + assert (Hs : split_from EmptyString s = []).
      { rewrite <- IH. destruct (rstrip s); [reflexivity|discriminate]. }
      rewrite Hs. reflexivity.
    + rewrite Hc. now rewrite !IH.
  - rewrite Hc. apply IH.
Qed.

(** Stripping a string does not change its tokens. *)
Lemma split_strip (s : string) : split (strip s) = split s.
Proof.
  unfold strip, split. rewrite split_from_rstrip. apply split_lstrip.
Qed.

(** The tokens of strings joined by single spaces are the tokens of the
    strings, in order. *)
Lemma split_join_any (parts : list string) :
  split (join " " parts) = flat_map split parts.
Proof.
  induction parts as [|x parts IH]; [reflexivity|].
  destruct parts as [|y parts].
  - simpl. now rewrite app_nil_r.
  - change (join " " (x :: y :: parts))
      with (String.append x (String " " (join " " (y :: parts)))).
    unfold split at 1. rewrite split_from_app_space by reflexivity.
    fold (split x). rewrite IH. reflexivity.
Qed.

(** The tokens of a text are the tokens of its lines. *)
Lemma split_lines_from (s cur : string) :
  flat_map split (split_on_from (ascii_of_nat 10) cur s)
  = split (String.append cur s).
Proof.
  revert cur. induction s as [|c s IH]; intros cur; simpl split_on_from.
  - simpl. now rewrite app_nil_r, string_app_empty_r.
  - destruct (Ascii.eqb_spec c (ascii_of_nat 10)) as [->|Hc].
    + simpl flat_map. rewrite IH. simpl String.append.
      unfold split at 3. now rewrite split_from_app_space by reflexivity.
    + rewrite IH, string_app_assoc. reflexivity.
Qed.

Lemma flat_map_split_kept_lines (lines : list string) :
  flat_map split
    (map strip (filter (fun line => negb (is_empty (strip line))) lines))
  = flat_map split lines.
Proof.
  induction lines as [|l lines IH]; [reflexivity|]. simpl.
  destruct (is_empty (strip l)) eqn:E; simpl.
  - rewrite IH. rewrite <- (split_strip l).
    destruct (strip l); [reflexivity|discriminate].
  - now rewrite IH, split_strip.
Qed.

(** The tokens of the kept lines of a text, joined by single spaces, are
    the tokens of the text. *)
Lemma kept_lines_tokens (text : string) :
  split (join " "
           (map strip
              (filter (fun line => negb (is_empty (strip line)))
                 (split_on (ascii_of_nat 10) text))))
  = split text.
Proof.
  rewrite split_join_any, flat_map_split_kept_lines.
  unfold split_on. now rewrite split_lines_from.
Qed.

(** A text without token has no line worth keeping. *)
Lemma kept_lines_blank (text : string) :
  split text = [] ->
  map strip
    (filter (fun line => negb (is_empty (strip line)))
       (split_on (ascii_of_nat 10) text)) = [].
Proof.
  intros H. unfold split_on.
  pose proof (split_lines_from text EmptyString) as HL.
  simpl String.append in HL. rewrite H in HL. clear H. rename HL into H.
  induction (split_on_from (ascii_of_nat 10) EmptyString text) as [|l lines IH];
    [reflexivity|].
  simpl in H. apply app_eq_nil in H. destruct H as [Hl Hlines].
  simpl. apply split_nil_iff, strip_empty_iff in Hl. rewrite Hl. simpl.
  now apply IH.
Qed.

(** X1: the lines [perform_ocr] returns, joined by single spaces as
    [align_text] joins them, have exactly the tokens of the transcribed
    text, in the same order. *)
Theorem perform_ocr_keeps_tokens (text : string) :
  split (join " " (perform_ocr text)) = split text.
Proof.
  unfold perform_ocr. destruct (is_empty text) eqn:E.
  - destruct text; [reflexivity|discriminate].
  - apply kept_lines_tokens.
Qed.

(** X2: [perform_ocr] returns no line exactly when the text has no token:
    an empty or blank transcription gives the empty list. *)
Theorem perform_ocr_empty_iff (text : string) :
  perform_ocr text = [] <-> split text = [].
Proof.
  unfold perform_ocr. destruct (is_empty text) eqn:E.
  - destruct text; [|discriminate]. split; reflexivity.
  - split.
    + intros H. rewrite <- kept_lines_tokens, H. reflexivity.
    + apply kept_lines_blank.
Qed.

Lemma string_forallb_app (p : ascii -> bool) (a b : string) :
  string_forallb p (String.append a b) = string_forallb p a && string_forallb p b.
Proof.
  induction a as [|c a IH]; simpl; [reflexivity|]. now rewrite IH, andb_assoc.
Qed.

Lemma string_forallb_lstrip (p : ascii -> bool) (s : string) :
  string_forallb p s = true -> string_forallb p (lstrip s) = true.
Proof.
  induction s as [|c s IH]; simpl; [reflexivity|].
  intros H. destruct (is_space c); [|exact H].
  apply andb_true_iff in H. now apply IH.
Qed.

Lemma string_forallb_rstrip (p : ascii -> bool) (s : string) :
  string_forallb p s = true -> string_forallb p (rstrip s) = true.
Proof.
  induction s as [|c s IH]; simpl; [reflexivity|].
  intros H. apply andb_true_iff in H. destruct H as [Hc Hs].
  destruct (is_space c && is_empty (rstrip s)); simpl; [reflexivity|].
  now rewrite Hc, IH.
Qed.

(** [strip] only removes characters. *)
Lemma string_forallb_strip (p : ascii -> bool) (s : string) :
  string_forallb p s = true -> string_forallb p (strip s) = true.
Proof.
  intros H. unfold strip. now apply string_forallb_rstrip, string_forallb_lstrip.
Qed.

Lemma lstrip_fixed (s : string) :
  match s with EmptyString => true | String c _ => negb (is_space c) end = true ->
  lstrip s = s.
Proof.
  destruct s as [|c s]; simpl; [reflexivity|].
  intros H. apply negb_true_iff in H. now rewrite H.
Qed.

Lemma lstrip_head (s : string) :
  match lstrip s with EmptyString => true | String c _ => negb (is_space c) end
  = true.
Proof.
  induction s as [|c s IH]; simpl; [reflexivity|].
  destruct (is_space c) eqn:Hc; [exact IH|]. simpl. now rewrite Hc.
Qed.

Lemma rstrip_head (s : string) :
  match s with EmptyString => true | String c _ => negb (is_space c) end = true ->
  match rstrip s with EmptyString => true | String c _ => negb (is_space c) end
  = true.
Proof.
  destruct s as [|c s]; simpl; [reflexivity|].
  intros H. apply negb_true_iff in H. rewrite H. simpl. now rewrite H.
Qed.

Lemma rstrip_idempotent (s : string) : rstrip (rstrip s) = rstrip s.
Proof.
  induction s as [|c s IH]; simpl; [reflexivity|].
  destruct (is_space c && is_empty (rstrip s)) eqn:E; [reflexivity|].
  simpl. now rewrite IH, E.
Qed.

(** Stripping twice is stripping once. *)
Lemma strip_idempotent (s : string) : strip (strip s) = strip s.
Proof.
  unfold strip.
  rewrite (lstrip_fixed (rstrip (lstrip s))).
  - apply rstrip_idempotent.
  - apply rstrip_head, lstrip_head.
Qed.

Lemma split_on_from_no_sep (sep : ascii) (s cur : string) :
  string_forallb (fun c => negb (Ascii.eqb c sep)) cur = true ->
  Forall (fun piece => string_forallb (fun c => negb (Ascii.eqb c sep)) piece = true)
    (split_on_from sep cur s).
Proof.
  revert cur. induction s as [|c s IH]; intros cur Hcur; simpl.
  - constructor; [assumption|constructor].
  - destruct (Ascii.eqb c sep) eqn:Hc.
    + constructor; [assumption|]. now apply IH.
    + apply IH. rewrite string_forallb_app, Hcur. simpl. now rewrite Hc.
Qed.

(** X3: every line [perform_ocr] returns is non-empty, has no newline in
    it, and has no white space left at either end. *)
Theorem perform_ocr_lines_clean (text : string) :
  Forall (fun line => is_empty line = false
                      /\ no_newline line = true
                      /\ strip line = line)
    (perform_ocr text).
Proof.
  unfold perform_ocr. destruct (is_empty text); [constructor|].
  pose proof (split_on_from_no_sep (ascii_of_nat 10) text EmptyString eq_refl) as H.
  unfold split_on.
  induction H as [|l lines Hl _ IH]; simpl; [constructor|].
  destruct (is_empty (strip l)) eqn:E; simpl; [exact IH|].
  constructor; [|exact IH]. repeat split.
  - exact E.
  - now apply string_forallb_strip.
  - apply strip_idempotent.
Qed.

(** ** The result is never empty, restated on the reconstruction *)

Lemma reconstruct_page_nonempty (scorer : string -> string -> float)
    (structured_data : list Box) (llm_tokens : list string) (out : list Box) :
  structured_data <> [] -> llm_tokens <> [] ->
  reconstruct structured_data llm_tokens
    (find_anchors scorer structured_data llm_tokens
     ++ [sentinel structured_data llm_tokens]) (-1) (-1) [] = Some out ->
  out <> [].
Proof.
  intros Hsd Htok Hrec.
  destruct (find_anchors_inv scorer structured_data llm_tokens) as (_ & Hok & _).
  fold (find_anchors scorer structured_data llm_tokens) in Hok.
  destruct (find_anchors scorer structured_data llm_tokens) as [|a rest].
  - simpl in Hrec. rewrite !slice_whole in Hrec.
    destruct (fill_gap llm_tokens structured_data []) as [out1|] eqn:Hfill;
      [|discriminate].
    inversion Hrec; subst. eapply fill_gap_grows; eauto.
  - simpl in Hrec.
    destruct (fill_gap _ _ []) as [out1|] eqn:Hfill; [|discriminate].
    apply Forall_cons_iff in Hok.
    destruct Hok as [(_ & _ & Htext & r & Hrect) _].
    rewrite Htext, Hrect in Hrec.
    eapply reconstruct_grows; [|exact Hrec].
    intros E. apply app_eq_nil in E. destruct E; discriminate.
Qed.

(** X4: aligning the lines returned by [perform_ocr] gives the same result
    as aligning the transcribed text itself, for every detection list and
    every text: cutting the text into lines changes nothing. *)
Theorem align_text_lines_as_text (scorer : string -> string -> float)
    (structured_data : list Box) (text : string) :
  align_text scorer structured_data (LlmLines (perform_ocr text))
  = align_text scorer structured_data (LlmStr text).
Proof.
  assert (Htokens : split (join " " (perform_ocr text)) = split text).
  { unfold perform_ocr. destruct (is_empty text) eqn:E.
    - destruct text; [reflexivity|discriminate].
    - apply kept_lines_tokens. }
  assert (Hblank : split text = [] -> perform_ocr text = []).
  { intros H. unfold perform_ocr. destruct (is_empty text); [reflexivity|].
    now apply kept_lines_blank. }
  unfold align_text. simpl falsy. simpl full_text.
  rewrite Htokens.
  destruct (split text) as [|t toks] eqn:Etok.
  - rewrite (Hblank eq_refl). simpl.
    now destruct (is_empty text).
  - assert (Hlines : is_nil (perform_ocr text) = false).
    { destruct (perform_ocr text) eqn:E; [|reflexivity].
      simpl in Htokens. discriminate. }
    assert (Htext : is_empty text = false).
    { destruct text; [discriminate|reflexivity]. }
    rewrite Hlines, Htext. simpl is_nil. cbv iota.
    destruct (reconstruct _ _ _ _ _ _) as [final_output|] eqn:Hrec; [|reflexivity].
    destruct structured_data as [|b sd] eqn:Esd.
    + simpl. now rewrite andb_false_r.
    + rewrite <- Esd in Hrec.
      apply reconstruct_page_nonempty in Hrec;
        [|subst; discriminate|discriminate].
      destruct final_output; [congruence|reflexivity].
Qed.

(** ** What an anchor is *)

Lemma nth_error_slice_nat {A : Type} (l : list A) (s e k : nat) (x : A) :
  s <= List.length l ->
  nth_error (slice l (Z.of_nat s) (Z.of_nat e)) k = Some x ->
  nth_error l (s + k) = Some x /\ k < e - s.
Proof.
  intros Hs H. rewrite slice_of_nat in H by assumption.
  rewrite nth_error_firstn in H.
  destruct (Nat.ltb_spec k (e - s)); [|discriminate].
  now rewrite nth_error_skipn in H.
Qed.

Section AnchorSoundness.

Variable scorer : string -> string -> float.
Variables (structured_data : list Box) (llm_tokens : list string).

Lemma match_step_sound (st : list Anchor * nat) (bi : nat) (b : Box) :
  nth_error structured_data bi = Some b ->
  snd st <= List.length llm_tokens ->
  Forall (anchor_sound scorer structured_data llm_tokens) (fst st) ->
  Forall (anchor_sound scorer structured_data llm_tokens)
    (fst (match_step scorer llm_tokens st bi b)).
Proof.
  destruct st as [matches si], b as [r box_text]. simpl.
  intros Hb Hsi Hall.
  destruct (is_empty (strip box_text)); [exact Hall|].
  destruct (is_empty (_clean_text box_text)) eqn:Hclean; [exact Hall|].
  destruct (extractOne scorer _ _) as [[[ctok score] off]|] eqn:Hext;
    [|exact Hall].
  destruct (PrimFloat.ltb 80 score) eqn:Hscore; [|exact Hall].
  simpl. apply Forall_app. split; [exact Hall|].
  constructor; [|constructor].
  apply extractOne_inv in Hext. destruct Hext as [Hnth Hs].
  rewrite nth_error_map in Hnth.
  destruct (nth_error (slice llm_tokens _ _) off) as [tok|] eqn:Htok;
    [|discriminate].
  simpl in Hnth. inversion Hnth; subst ctok.
  pose proof (nth_error_nth _ _ EmptyString Htok) as Hdefault.
  apply nth_error_slice_nat in Htok; [|exact Hsi].
  destruct Htok as [Htok _].
  exists r, box_text, tok. simpl.
  rewrite Hdefault. subst score. repeat split; assumption.
Qed.

Lemma match_loop_sound (boxes : list Box) :
  forall (done : list Box) (st : list Anchor * nat),
    structured_data = done ++ boxes ->
    match_inv llm_tokens (List.length done) st ->
    Forall (anchor_sound scorer structured_data llm_tokens) (fst st) ->
    Forall (anchor_sound scorer structured_data llm_tokens)
      (fst (match_loop scorer llm_tokens boxes (List.length done) st)).
Proof.
  induction boxes as [|b rest IH]; intros done st Hsd Hinv Hall; simpl.
  - exact Hall.
  - replace (S (List.length done)) with (List.length (done ++ [b]))
      by (rewrite length_app; simpl; lia).
    apply IH.
    + now rewrite <- app_assoc.
    + rewrite length_app. simpl. rewrite Nat.add_1_r.
      now apply match_step_inv.
    + apply match_step_sound; trivial.
      * rewrite Hsd, nth_error_app2, Nat.sub_diag by lia. reflexivity.
      * apply Hinv.
Qed.

End AnchorSoundness.

(** X5: every anchor the matcher accepts is sound: it carries the rect of
    the box at its [box_idx], its text is the original token at its
    [llm_idx], the box has a non-empty cleaned text, and the cleaned box text
    scores strictly above 80 against the cleaned token. *)
Theorem anchors_are_sound (scorer : string -> string -> float)
    (structured_data : list Box) (llm_tokens : list string) :
  Forall (anchor_sound scorer structured_data llm_tokens)
    (find_anchors scorer structured_data llm_tokens).
Proof.
  apply (match_loop_sound scorer structured_data llm_tokens structured_data
           [] ([], 0)).
  - reflexivity.
  - repeat split; simpl; [lia|constructor|constructor].
  - constructor.
Qed.

Lemma sorted_keys_bound {A : Type} (R : A -> A -> Prop) (key : A -> nat)
    (n : nat) (l : list A) :
  (forall a b, R a b -> key a < key b) ->
  StronglySorted R l ->
  forall m, Forall (fun a => m <= key a < n) l -> List.length l <= n - m.
Proof.
  intros HR. induction 1 as [|x l Hs IH Hx]; intros m Hall; simpl.
  - lia.
  - apply Forall_cons_iff in Hall. destruct Hall as [Hxm Hall].
    enough (List.length l <= n - S (key x)) by lia.
    apply IH. rewrite Forall_forall in *. intros a Ha.
    specialize (Hx a Ha). apply HR in Hx. specialize (Hall a Ha). lia.
Qed.

(** X6: every anchor designates a box of the page and a token of the
    content, and there are no more anchors than boxes and no more anchors
    than tokens. *)
Theorem anchors_in_range (scorer : string -> string -> float)
    (structured_data : list Box) (llm_tokens : list string) :
  let anchors := find_anchors scorer structured_data llm_tokens in
  Forall (fun a => box_idx a < List.length structured_data
                   /\ llm_idx a < List.length llm_tokens) anchors
  /\ List.length anchors <= List.length structured_data
  /\ List.length anchors <= List.length llm_tokens.
Proof.
  intros anchors.
  destruct (find_anchors_inv scorer structured_data llm_tokens)
    as (Hcur & Hok & Hsorted).
  fold (find_anchors scorer structured_data llm_tokens) in Hok, Hsorted.
  fold anchors in Hok, Hsorted.
  assert (Hrange : Forall (fun a => box_idx a < List.length structured_data
                                    /\ llm_idx a < List.length llm_tokens) anchors).
  { eapply Forall_impl; [|exact Hok]. intros a (Hb & Hl & _). lia. }
  split; [exact Hrange|]. split.
  - pose proof (sorted_keys_bound anchor_lt box_idx (List.length structured_data)
                  anchors (fun a b H => proj1 H) Hsorted 0) as H.
    rewrite Nat.sub_0_r in H. apply H.
    eapply Forall_impl; [|exact Hrange]. intros a [? ?]. lia.
  - pose proof (sorted_keys_bound anchor_lt llm_idx (List.length llm_tokens)
                  anchors (fun a b H => proj2 H) Hsorted 0) as H.
    rewrite Nat.sub_0_r in H. apply H.
    eapply Forall_impl; [|exact Hrange]. intros a [? ?]. lia.
Qed.

(** ** The window between two anchors *)

Lemma cursor_after_snoc (start : nat) (anchors : list Anchor) (a : Anchor) :
  cursor_after start (anchors ++ [a]) = S (llm_idx a).
Proof. unfold cursor_after. now rewrite fold_left_app. Qed.

Lemma window_chain_snoc (anchors : list Anchor) (a : Anchor) :
  forall start,
    window_chain start anchors ->
    cursor_after start anchors <= llm_idx a
    < cursor_after start anchors + window_size ->
    window_chain start (anchors ++ [a]).
Proof.
  induction anchors as [|x rest IH]; intros start Hchain Ha; simpl in *.
  - auto.
  - destruct Hchain as [Hx Hrest]. split; [exact Hx|]. now apply IH.
Qed.

Lemma match_step_window (scorer : string -> string -> float)
    (llm_tokens : list string) (st : list Anchor * nat) (bi : nat) (b : Box) :
  window_chain 0 (fst st) /\ snd st = cursor_after 0 (fst st) ->
  let st' := match_step scorer llm_tokens st bi b in
  window_chain 0 (fst st') /\ snd st' = cursor_after 0 (fst st').
Proof.
  destruct st as [matches si], b as [r box_text]. simpl.
  intros [Hchain Hsi].
  destruct (is_empty (strip box_text)); [now split|].
  destruct (is_empty (_clean_text box_text)); [now split|].
  destruct (extractOne scorer _ _) as [[[ctok score] off]|] eqn:Hext;
    [|now split].
  destruct (PrimFloat.ltb 80 score); [|now split].
  apply extractOne_inv in Hext. destruct Hext as [Hnth _].
  assert (Hoff : off < window_size).
  { assert (Hlt : off < List.length
                          (map _clean_text
                             (slice llm_tokens (Z.of_nat si)
                                (Z.of_nat (Nat.min (List.length llm_tokens)
                                             (si + window_size))))))
      by (apply nth_error_Some; congruence).
    rewrite length_map in Hlt. unfold slice in Hlt.
    rewrite length_firstn, length_skipn, !clamp_of_nat in Hlt. lia. }
  simpl. split.
  - apply window_chain_snoc; [exact Hchain|]. simpl. lia.
  - rewrite cursor_after_snoc. simpl. lia.
Qed.

Lemma match_loop_window (scorer : string -> string -> float)
    (llm_tokens : list string) (boxes : list Box) :
  forall (bi : nat) (st : list Anchor * nat),
    window_chain 0 (fst st) /\ snd st = cursor_after 0 (fst st) ->
    let st' := match_loop scorer llm_tokens boxes bi st in
    window_chain 0 (fst st') /\ snd st' = cursor_after 0 (fst st').
Proof.
  induction boxes as [|b rest IH]; intros bi st H; simpl; [exact H|].
  apply IH. now apply match_step_window.
Qed.

(** X7: the first anchor lies among the first [window_size] tokens, and
    every later anchor lies among the [window_size] tokens that follow the
    previous anchor: a token further away is never anchored. *)
Theorem anchors_stay_in_window (scorer : string -> string -> float)
    (structured_data : list Box) (llm_tokens : list string) :
  window_chain 0 (find_anchors scorer structured_data llm_tokens).
Proof.
  apply (match_loop_window scorer llm_tokens structured_data 0 ([], 0)).
  simpl. auto.
Qed.

(** ** The token an anchor takes *)

Lemma SFcompare_eq_lt (a b c : spec_float) :
  SFcompare b c = Some Eq -> SFcompare a c = Some Lt -> SFcompare a b = Some Lt.
Proof.
  destruct a as [sa|sa| |sa ma ea], b as [sb|sb| |sb mb eb],
    c as [sc|sc| |sc mc ec]; simpl;
    try discriminate; try reflexivity;
    try (destruct sa, sb, sc; simpl; intros; congruence).
  destruct sa, sb, sc; try congruence; try reflexivity;
    fold (Pos.compare mb mc); fold (Pos.compare ma mc); fold (Pos.compare ma mb);
    destruct (Z.compare_spec eb ec), (Z.compare_spec ea ec),
      (Z.compare_spec ea eb); subst; try lia; try congruence;
    destruct (Pos.compare_spec mb mc), (Pos.compare_spec ma mc),
      (Pos.compare_spec ma mb); subst; simpl; try lia; congruence.
Qed.

Lemma float_eqb_ltb (a b c : float) :
  PrimFloat.eqb b c = true -> PrimFloat.ltb a c = true -> PrimFloat.ltb a b = true.
Proof.
  rewrite eqb_spec, !ltb_spec. unfold SFeqb, SFltb.
  destruct (SFcompare (Prim2SF b) (Prim2SF c)) as [[| |]|] eqn:Hbc; try discriminate.
  destruct (SFcompare (Prim2SF a) (Prim2SF c)) as [[| |]|] eqn:Hac; try discriminate.
  now rewrite (SFcompare_eq_lt _ _ _ Hbc Hac).
Qed.

(** No choice before the one [extractOne] returns has a score equal to the
    score returned: among equal best scores the first choice wins. *)
Lemma extract_loop_first (scorer : string -> string -> float) (query : string)
    (choices : list string) :
  forall (i : nat) (seen : list string) (result : option (string * float * nat))
         tok score off,
    i = List.length seen ->
    match result with
    | None => seen = []
    | Some (_, best, o) =>
        o < List.length seen
        /\ (forall c, In c seen -> PrimFloat.ltb best (scorer query c) = false)
        /\ (forall j c, j < o -> nth_error seen j = Some c ->
                        PrimFloat.eqb (scorer query c) best = false)
    end ->
    extract_loop scorer query choices i result = Some (tok, score, off) ->
    forall j c, j < off -> nth_error (seen ++ choices) j = Some c ->
                PrimFloat.eqb (scorer query c) score = false.
Proof.
  induction choices as [|choice rest IH];
    intros i seen result tok score off Hi Hinv H.
  - simpl in H. subst result. rewrite app_nil_r. apply Hinv.
  - simpl in H. intros j c Hj Hc.
    eapply (IH (S i) (seen ++ [choice])); [| |exact H|exact Hj|].
    + rewrite length_app. simpl. lia.
    + destruct result as [[[t0 best] o0]|].
      * destruct Hinv as (Ho & Hbest & Hfirst).
        destruct (PrimFloat.ltb best (scorer query choice)) eqn:Hlt.
        -- rewrite length_app. simpl. split; [lia|]. split.
           ++ intros c' Hc'. apply in_app_or in Hc'. destruct Hc' as [Hc'|[<-|[]]].
              ** destruct (PrimFloat.ltb (scorer query choice) (scorer query c'))
                   eqn:E; [|reflexivity].
                 rewrite <- (Hbest c' Hc'). symmetry.
                 exact (float_ltb_trans _ _ _ Hlt E).
              ** apply float_ltb_irrefl.
           ++ intros j' c' Hj' Hc'. rewrite nth_error_app1 in Hc' by lia.
              destruct (PrimFloat.eqb (scorer query c') (scorer query choice))
                eqn:E; [|reflexivity].
              rewrite <- (Hbest c' (nth_error_In _ _ Hc')). symmetry.
              exact (float_eqb_ltb _ _ _ E Hlt).
        -- rewrite length_app. simpl. split; [lia|]. split.
           ++ intros c' Hc'. apply in_app_or in Hc'. destruct Hc' as [Hc'|[<-|[]]].
              ** now apply Hbest.
              ** exact Hlt.
           ++ intros j' c' Hj' Hc'. rewrite nth_error_app1 in Hc' by lia.
              now apply (Hfirst j').
      * subst seen. simpl in Hi. subst i. simpl. split; [lia|]. split.
        -- intros c' [<-|[]]. apply float_ltb_irrefl.
        -- intros j' c' Hj'. lia.
    + now rewrite <- app_assoc.
Qed.

Lemma extractOne_first (scorer : string -> string -> float) (query : string)
    (choices : list string) tok score off :
  extractOne scorer query choices = Some (tok, score, off) ->
  forall j c, j < off -> nth_error choices j = Some c ->
              PrimFloat.eqb (scorer query c) score = false.
Proof.
  intros H. exact (extract_loop_first scorer query choices 0 [] None tok score off
                     eq_refl eq_refl H).
Qed.

(** X8: when a box is anchored, the token taken is the first token of the
    window whose cleaned form has the best score against the cleaned box
    text: no token of the window scores strictly higher, no earlier token of
    the window has the same score, and that score is above 80. *)
Theorem accepted_token_is_first_best
    (scorer : string -> string -> float) (llm_tokens : list string)
    (matches : list Anchor) (llm_search_idx box_idx : nat)
    (rect : Rect) (box_text : string) (a : Anchor) :
  fst (match_step scorer llm_tokens (matches, llm_search_idx) box_idx
         (rect, box_text)) = matches ++ [a] ->
  exists off tok,
    llm_idx a = llm_search_idx + off
    /\ nth_error (window llm_tokens llm_search_idx) off = Some tok
    /\ text a = Some tok
    /\ PrimFloat.ltb 80 (scorer (_clean_text box_text) (_clean_text tok)) = true
    /\ (forall c, In c (window llm_tokens llm_search_idx) ->
                  PrimFloat.ltb (scorer (_clean_text box_text) (_clean_text tok))
                    (scorer (_clean_text box_text) (_clean_text c)) = false)
    /\ (forall j c, j < off ->
                    nth_error (window llm_tokens llm_search_idx) j = Some c ->
                    PrimFloat.eqb (scorer (_clean_text box_text) (_clean_text c))
                      (scorer (_clean_text box_text) (_clean_text tok)) = false).
Proof.
  unfold match_step. fold (window llm_tokens llm_search_idx).
  intros H.
  assert (Hno : forall l : list Anchor, l = l ++ [a] -> False)
    by (intros l E; symmetry in E; now apply snoc_neq in E).
  destruct (is_empty (strip box_text)); [now apply Hno in H|].
  destruct (is_empty (_clean_text box_text)); [now apply Hno in H|].
  destruct (extractOne scorer _ _) as [[[ctok score] off]|] eqn:Hext;
    [|now apply Hno in H].
  destruct (PrimFloat.ltb 80 score) eqn:Hscore; [|now apply Hno in H].
  simpl in H. apply app_inj_tail in H. destruct H as [_ <-]. simpl.
  pose proof (extractOne_best _ _ _ _ _ _ Hext) as Hbest.
  pose proof (extractOne_first _ _ _ _ _ _ Hext) as Hfirst.
  apply extractOne_inv in Hext. destruct Hext as [Hnth Hs].
  rewrite nth_error_map in Hnth.
  destruct (nth_error (window llm_tokens llm_search_idx) off) as [tok|] eqn:Htok;
    [|discriminate].
  simpl in Hnth. inversion Hnth; subst ctok. subst score.
  exists off, tok. rewrite (nth_error_nth _ _ EmptyString Htok).
  repeat split; trivial.
  - intros c Hc. apply Hbest. now apply in_map.
  - intros j c Hj Hc. apply (Hfirst j); [exact Hj|].
    rewrite nth_error_map, Hc. reflexivity.
Qed.

Lemma accepted_token_is_first_best_witness :
  exists off tok,
    llm_idx (mkAnchor 0 1 (Some "Hello") (Some (mkRect 0.1 0.1 0.3 0.2))) = 0 + off
    /\ nth_error (window ["Hi"; "Hello"; "hello!"] 0) off = Some tok
    /\ text (mkAnchor 0 1 (Some "Hello") (Some (mkRect 0.1 0.1 0.3 0.2))) = Some tok
    /\ PrimFloat.ltb 80 (fuzz_ratio (_clean_text "Helo") (_clean_text tok)) = true
    /\ (forall c, In c (window ["Hi"; "Hello"; "hello!"] 0) ->
                  PrimFloat.ltb (fuzz_ratio (_clean_text "Helo") (_clean_text tok))
                    (fuzz_ratio (_clean_text "Helo") (_clean_text c)) = false)
    /\ (forall j c, j < off ->
                    nth_error (window ["Hi"; "Hello"; "hello!"] 0) j = Some c ->
                    PrimFloat.eqb (fuzz_ratio (_clean_text "Helo") (_clean_text c))
                      (fuzz_ratio (_clean_text "Helo") (_clean_text tok)) = false).
Proof.
  apply (accepted_token_is_first_best fuzz_ratio ["Hi"; "Hello"; "hello!"]
           [] 0 0 (mkRect 0.1 0.1 0.3 0.2) "Helo").
  reflexivity.
Defined.

(** ** Rows are the maximal runs of overlapping boxes *)

Lemma last_default {A : Type} (l : list A) (d d' : A) :
  l <> [] -> last l d = last l d'.
Proof.
  induction l as [|x l IH]; [congruence|]. intros _.
  destruct l as [|y l]; [reflexivity|].
  change (last (y :: l) d = last (y :: l) d'). apply IH. discriminate.
Qed.

Lemma chained_snoc (row : list Box) (b : Box) :
  forall (prev : Rect) (d : Box),
    chained prev (row ++ [b])
    = chained prev row
      && overlaps_half (match row with [] => prev | _ => fst (last row d) end)
           (fst b).
Proof.
  induction row as [|x row IH]; intros prev d; simpl.
  - now rewrite andb_true_r.
  - rewrite (IH (fst x) d), andb_assoc. f_equal.
    destruct row as [|y row]; reflexivity.
Qed.

Lemma row_chained_snoc (row : list Box) (b d : Box) :
  row <> [] ->
  row_chained (row ++ [b])
  = row_chained row && overlaps_half (fst (last row d)) (fst b).
Proof.
  destruct row as [|x row]; [congruence|]. intros _. simpl.
  rewrite (chained_snoc row b (fst x) d). f_equal.
  destruct row as [|y row]; reflexivity.
Qed.

(** Whether the rows break depends on the last row through its first box
    only. *)
Lemma rows_break_grow_last (finished : list (list Box)) (row : list Box) (b : Box) :
  row <> [] ->
  rows_break (finished ++ [row ++ [b]]) = rows_break (finished ++ [row]).
Proof.
  intros Hrow. induction finished as [|r1 finished IH]; [reflexivity|].
  destruct finished as [|r2 finished].
  - simpl. f_equal. unfold row_breaks.
    destruct r1 as [|b1 r1]; [reflexivity|].
    destruct row as [|x row]; [congruence|]. reflexivity.
  - change (row_breaks r1 r2 && rows_break ((r2 :: finished) ++ [row ++ [b]])
            = row_breaks r1 r2 && rows_break ((r2 :: finished) ++ [row])).
    now rewrite IH.
Qed.

Lemma rows_break_new_row (rows : list (list Box)) (b d : Box) :
  rows_ok rows ->
  rows_break (rows ++ [[b]])
  = rows_break rows
    && negb (overlaps_half (fst (last (last rows []) d)) (fst b)).
Proof.
  intros [Hne Hall]. induction rows as [|r1 rows IH]; [congruence|].
  apply Forall_cons_iff in Hall. destruct Hall as [Hr1 Hall].
  destruct rows as [|r2 rows].
  - simpl. rewrite andb_true_r. unfold row_breaks.
    destruct r1 as [|b1 r1]; [congruence|].
    now rewrite (last_default (b1 :: r1) b1 d) by discriminate.
  - change (row_breaks r1 r2 && rows_break ((r2 :: rows) ++ [[b]])
            = row_breaks r1 r2 && rows_break (r2 :: rows)
              && negb (overlaps_half
                         (fst (last (last (r2 :: rows) []) d)) (fst b))).
    rewrite IH by (discriminate || assumption). now rewrite andb_assoc.
Qed.

Lemma row_step_runs (rows : list (list Box)) (b : Box) :
  rows_ok rows ->
  forallb row_chained rows = true -> rows_break rows = true ->
  forallb row_chained (row_step rows b) = true
  /\ rows_break (row_step rows b) = true.
Proof.
  intros Hok Hchain Hbreak.
  pose proof Hok as [Hne Hall].
  pose proof (app_removelast_last [] Hne) as Hsplit.
  assert (Hcur : last rows [] <> []).
  { rewrite Forall_forall in Hall. apply Hall. rewrite Hsplit at 2.
    apply in_or_app. right. now left. }
  unfold row_step. rewrite same_line_overlaps_half.
  destruct (overlaps_half _ _) eqn:Hov.
  - split.
    + rewrite Hsplit, forallb_app in Hchain. apply andb_true_iff in Hchain.
      destruct Hchain as [Hinit Hlast]. simpl in Hlast.
      rewrite andb_true_r in Hlast.
      rewrite forallb_app, Hinit. simpl.
      rewrite (row_chained_snoc _ b b Hcur), Hlast, Hov. reflexivity.
    + rewrite rows_break_grow_last by assumption. now rewrite <- Hsplit.
  - split.
    + rewrite forallb_app, Hchain. reflexivity.
    + rewrite (rows_break_new_row rows b b Hok), Hbreak, Hov. reflexivity.
Qed.

Lemma fold_row_step_runs (bs : list Box) :
  forall rows : list (list Box),
    rows_ok rows ->
    forallb row_chained rows = true -> rows_break rows = true ->
    forallb row_chained (fold_left row_step bs rows) = true
    /\ rows_break (fold_left row_step bs rows) = true.
Proof.
  induction bs as [|b bs IH]; intros rows Hok Hchain Hbreak; simpl; [now split|].
  destruct (row_step_runs rows b Hok Hchain Hbreak) as [Hc Hb].
  apply IH; trivial. now apply row_step_ok.
Qed.

(** X9: the rows of a gap are exactly the maximal runs of its boxes: put
    end to end they give back the gap boxes in order, no row is empty,
    inside a row every box overlaps the box before it by more than half the
    shorter height, and the last box of a row does not so overlap the first
    box of the next row. *)
Theorem group_rows_maximal_runs (gap_boxes : list Box) :
  List.concat (group_rows gap_boxes) = gap_boxes
  /\ Forall (fun row => row <> []) (group_rows gap_boxes)
  /\ forallb row_chained (group_rows gap_boxes) = true
  /\ rows_break (group_rows gap_boxes) = true.
Proof.
  split; [apply group_rows_concat|].
  destruct gap_boxes as [|b0 rest].
  - repeat split. constructor.
  - assert (Hok : rows_ok [[b0]]).
    { split; [discriminate|]. constructor; [discriminate|constructor]. }
    split.
    + apply (fold_row_step_ok rest [[b0]] Hok).
    + apply (fold_row_step_runs rest [[b0]] Hok); reflexivity.
Qed.

(** ** A page without boxes *)

Lemma find_anchors_no_box (scorer : string -> string -> float)
    (llm_tokens : list string) :
  find_anchors scorer [] llm_tokens = [].
Proof. reflexivity. Qed.

(** X10: when the detector found nothing and the content has a token, the
    result is one element: the default rect [0, 0, 1, 0.1] carrying all the
    tokens joined by single spaces; [align_text] does not fail. *)
Theorem align_text_no_box (scorer : string -> string -> float)
    (llm_text : LlmText) :
  split (full_text llm_text) <> [] ->
  align_text scorer [] llm_text
  = Some [(mkRect 0 0 1 0.1, join " " (split (full_text llm_text)))].
Proof.
  intros Hne. unfold align_text.
  destruct (falsy llm_text) eqn:Hf.
  { apply falsy_no_token in Hf. congruence. }
  remember (split (full_text llm_text)) as tokens eqn:Etok.
  destruct tokens as [|t toks]; [congruence|]. simpl is_nil. cbv iota.
  rewrite find_anchors_no_box. simpl app.
  unfold reconstruct, sentinel. cbn [box_idx llm_idx text rect].
  rewrite slice_whole. reflexivity.
Qed.

Lemma align_text_no_box_witness :
  align_text fuzz_ratio [] (LlmLines ["Some text"; "more"])
  = Some [(mkRect 0 0 1 0.1,
           join " " (split (full_text (LlmLines ["Some text"; "more"]))))].
Proof.
  apply (align_text_no_box fuzz_ratio (LlmLines ["Some text"; "more"])).
  discriminate.
Defined.

(** ** Witnesses for the general facts on the fallback and on thin rows *)

Lemma full_page_fallback_unreachable_witness :
  reconstruct [box_at 0.1 0.1 0.5 0.2 "zzz"] (split (full_text (LlmStr "hello")))
    (find_anchors fuzz_ratio [box_at 0.1 0.1 0.5 0.2 "zzz"]
       (split (full_text (LlmStr "hello")))
     ++ [sentinel [box_at 0.1 0.1 0.5 0.2 "zzz"]
           (split (full_text (LlmStr "hello")))]) (-1) (-1) []
  = Some [(mkRect 0.1 0.1 0.5 0.2, "hello")]
  /\ [(mkRect 0.1 0.1 0.5 0.2, "hello")] <> [].
Proof.
  apply (full_page_fallback_unreachable fuzz_ratio
           [box_at 0.1 0.1 0.5 0.2 "zzz"] (LlmStr "hello")).
  - discriminate.
  - discriminate.
  - reflexivity.
Defined.

Lemma assign_loop_zero_width_per_row_witness :
  exists elems,
    assign_loop ["xyz"; "qrs"] [0%float; 0%float] 0 2 (group_rows thin_boxes) 0 0 []
    = Some ([] ++ elems)
    /\ List.length elems = List.length (group_rows thin_boxes)
    /\ Forall (fun e => split (snd e) = ["xyz"; "qrs"]) elems.
Proof.
  apply (assign_loop_zero_width_per_row ["xyz"; "qrs"] [0%float; 0%float] 0 2
           (group_rows thin_boxes)).
  - reflexivity.
  - discriminate.
  - repeat constructor.
  - repeat constructor; discriminate.
Defined.

(** ** Anchors in the result *)

Lemma subseq_refl {A : Type} (l : list A) : subseq l l.
Proof. induction l; [apply subseq_nil|now apply subseq_take]. Qed.

Lemma subseq_app_skip {A : Type} (p l1 l2 : list A) :
  subseq l1 l2 -> subseq l1 (p ++ l2).
Proof. intros H. induction p; simpl; [assumption|now apply subseq_skip]. Qed.

Lemma subseq_app {A : Type} (a b c d : list A) :
  subseq a b -> subseq c d -> subseq (a ++ c) (b ++ d).
Proof.
  induction 1 as [l|x l1 l2 _ IH|x l1 l2 _ IH]; intros Hcd; simpl.
  - now apply subseq_app_skip.
  - apply subseq_skip. now apply IH.
  - apply subseq_take. now apply IH.
Qed.

Lemma emit_chunk_extends (row : list Box) (chunk : list string)
    (out out' : list Box) :
  emit_chunk row chunk out = Some out' -> exists ext, out' = out ++ ext.
Proof.
  unfold emit_chunk. destruct (is_nil chunk).
  - intros H. inversion H; subst. exists []. now rewrite app_nil_r.
  - destruct (union_rect row); [|discriminate].
    intros H. inversion H; subst. eauto.
Qed.

Lemma assign_loop_extends (gap_tokens : list string) (widths : list float)
    (total : float) (nrows : nat) (rows : list (list Box)) :
  forall (i : nat) (token_start : Z) (out out' : list Box),
    assign_loop gap_tokens widths total nrows rows i token_start out = Some out' ->
    exists ext, out' = out ++ ext.
Proof.
  induction rows as [|row rest IH]; intros i ts out out' H; simpl in H.
  - inversion H; subst. exists []. now rewrite app_nil_r.
  - destruct (take_chunk _ _ _ _ _ _) as [[chunk ts']|]; [|discriminate].
    destruct (emit_chunk row chunk out) as [out1|] eqn:Hemit; [|discriminate].
    apply emit_chunk_extends in Hemit. destruct Hemit as [e1 ->].
    apply IH in H. destruct H as [e2 ->].
    exists (e1 ++ e2). now rewrite app_assoc.
Qed.

Lemma fill_gap_extends (gap_tokens : list string) (gap_boxes : list Box)
    (out out' : list Box) :
  fill_gap gap_tokens gap_boxes out = Some out' -> exists ext, out' = out ++ ext.
Proof.
  unfold fill_gap. destruct (is_nil gap_tokens).
  - intros H. inversion H; subst. exists []. now rewrite app_nil_r.
  - destruct (negb (is_nil gap_boxes)).
    + destruct (row_widths _); [|discriminate]. apply assign_loop_extends.
    + destruct out; intros H; inversion H; subst; eexists; reflexivity.
Qed.

Lemma reconstruct_keeps_anchors (structured_data : list Box)
    (llm_tokens : list string) (matches : list Anchor) :
  forall (prev_box_idx prev_llm_idx : Z) (out out' : list Box),
    reconstruct structured_data llm_tokens matches prev_box_idx prev_llm_idx out
    = Some out' ->
    exists ext, out' = out ++ ext /\ subseq (anchor_elems matches) ext.
Proof.
  induction matches as [|a rest IH]; intros pb pl out out' H; simpl in H.
  - inversion H; subst. exists []. rewrite app_nil_r. split; [reflexivity|constructor].
  - destruct (fill_gap _ _ out) as [out1|] eqn:Hfill; [|discriminate].
    apply fill_gap_extends in Hfill. destruct Hfill as [e1 ->].
    assert (Helem : match text a with
                    | Some t => match rect a with
                                | Some r => (out ++ e1) ++ [(r, t)]
                                | None => out ++ e1
                                end
                    | None => out ++ e1
                    end = (out ++ e1) ++ anchor_elem a).
    { unfold anchor_elem. destruct (text a); [destruct (rect a)|];
        now rewrite ?app_nil_r. }
    rewrite Helem in H. apply IH in H. destruct H as (e2 & -> & Hsub).
    exists (e1 ++ anchor_elem a ++ e2). split.
    + now rewrite !app_assoc.
    + apply subseq_app_skip. simpl.
      apply subseq_app; [apply subseq_refl|exact Hsub].
Qed.

Lemma find_anchors_no_token (scorer : string -> string -> float)
    (structured_data : list Box) :
  find_anchors scorer structured_data [] = [].
Proof.
  destruct (find_anchors_inv scorer structured_data []) as (Hcur & Hok & _).
  fold (find_anchors scorer structured_data []) in Hok.
  destruct (find_anchors scorer structured_data []) as [|a rest]; [reflexivity|].
  apply Forall_cons_iff in Hok. destruct Hok as [(_ & Hllm & _) _].
  simpl in Hcur. lia.
Qed.

(** X11: whatever [align_text] returns, the accepted anchors are in it:
    the pairs (rect, token) of the anchors appear in the result in the order
    of the anchors, possibly with gap elements between them. *)
Theorem anchors_appear_in_result (scorer : string -> string -> float)
    (structured_data : list Box) (llm_text : LlmText) (out : list Box) :
  align_text scorer structured_data llm_text = Some out ->
  subseq
    (anchor_elems (find_anchors scorer structured_data (split (full_text llm_text))))
    out.
Proof.
  unfold align_text. intros H.
  destruct (falsy llm_text) eqn:Hf.
  { apply falsy_no_token in Hf. rewrite Hf, find_anchors_no_token. constructor. }
  remember (split (full_text llm_text)) as tokens eqn:Etok.
  destruct tokens as [|t toks].
  { rewrite find_anchors_no_token. constructor. }
  simpl is_nil in H. cbv iota in H.
  destruct (reconstruct _ _ _ _ _ _) as [final_output|] eqn:Hrec; [|discriminate].
  apply reconstruct_keeps_anchors in Hrec. destruct Hrec as (ext & -> & Hsub).
  simpl app in *.
  unfold anchor_elems in Hsub. rewrite flat_map_app in Hsub.
  simpl in Hsub. rewrite app_nil_r in Hsub.
  destruct (is_nil ext && negb (is_nil structured_data)) eqn:Hfb;
    inversion H; subst; [|exact Hsub].
  destruct ext; [|discriminate]. apply subseq_skip. exact Hsub.
Qed.

Lemma anchors_appear_in_result_witness :
  subseq
    (anchor_elems (find_anchors fuzz_ratio gapped_page
                     (split (full_text (LlmStr "Hello big wide world")))))
    [(mkRect 0.1 0.1 0.3 0.2, "Hello");
     (mkRect 0.1 0.3 0.5 0.4, "big wide");
     (mkRect 0.1 0.5 0.3 0.6, "world")].
Proof.
  apply (anchors_appear_in_result fuzz_ratio gapped_page
           (LlmStr "Hello big wide world")).
  reflexivity.
Defined.

(** ** Where a synthetic box lies *)

Lemma float_ltb_asym (a b : float) :
  PrimFloat.ltb a b = true -> PrimFloat.ltb b a = false.
Proof.
  intros H. destruct (PrimFloat.ltb b a) eqn:E; [|reflexivity].
  rewrite <- (float_ltb_irrefl a). symmetry.
  exact (float_ltb_trans _ _ _ H E).
Qed.

(** X12: a synthetic box always spans [0.05, 0.95] horizontally and its
    [y1] is never greater than 0.98; when the computed [y1] would exceed
    0.98 the box is clamped: its [y1] is exactly 0.98 and its [y0] is never
    smaller than 0.9; otherwise [y1] is the computed value. *)
Theorem synthetic_rect_on_page (last_rect : Rect) :
  x0 (synthetic_rect last_rect) = 0.05%float
  /\ x1 (synthetic_rect last_rect) = 0.95%float
  /\ PrimFloat.ltb 0.98 (y1 (synthetic_rect last_rect)) = false
  /\ (let h := pymax (y1 last_rect - y0 last_rect) 0.02 in
      if PrimFloat.ltb 0.98 (y1 last_rect + h * 0.2 + h)
      then y1 (synthetic_rect last_rect) = 0.98%float
           /\ PrimFloat.ltb (y0 (synthetic_rect last_rect)) 0.9 = false
      else y1 (synthetic_rect last_rect) = (y1 last_rect + h * 0.2 + h)%float).
Proof.
  unfold synthetic_rect, pymax.
  set (h := if PrimFloat.ltb (y1 last_rect - y0 last_rect) 0.02
            then 0.02%float else (y1 last_rect - y0 last_rect)%float).
  destruct (PrimFloat.ltb 0.98 (y1 last_rect + h * 0.2 + h)) eqn:Hclamp; simpl.
  - repeat split.
    destruct (PrimFloat.ltb 0.9 (0.98 - h)) eqn:E.
    + now apply float_ltb_asym.
    + reflexivity.
  - repeat split. exact Hclamp.
Qed.

(** ** What [_clean_text] leaves *)

Lemma lower_char_not_upper (c : ascii) : is_upper (lower_char c) = false.
Proof. destruct c as [[] [] [] [] [] [] [] []]; reflexivity. Qed.

Lemma lower_no_upper (s : string) :
  string_forallb (fun c => negb (is_upper c)) (lower s) = true.
Proof.
  induction s as [|c s IH]; simpl; [reflexivity|].
  now rewrite lower_char_not_upper, IH.
Qed.

Lemma remove_punct_forallb (p : ascii -> bool) (s : string) :
  string_forallb p s = true ->
  string_forallb (fun c => negb (is_punct c) && p c) (remove_punct s) = true.
Proof.
  induction s as [|c s IH]; simpl; [reflexivity|].
  intros H. apply andb_true_iff in H. destruct H as [Hc Hs].
  destruct (is_punct c) eqn:Hp; simpl.
  - now apply IH.
  - now rewrite Hp, Hc, IH.
Qed.

(** X13: the cleaned form of any text contains no punctuation character and
    no upper-case letter. *)
Theorem clean_text_no_punct_no_upper (s : string) :
  string_forallb (fun c => negb (is_punct c) && negb (is_upper c))
    (_clean_text s) = true.
Proof.
  unfold _clean_text. apply remove_punct_forallb.
  apply string_forallb_strip, lower_no_upper.
Qed.

(** ** When [get_structured_text] fails *)

(** X14: on an image of non-zero size, [get_structured_text] fails exactly
    when some detection has a polygon without points; one such detection
    makes the whole call fail, whatever the other detections are. *)
Theorem get_structured_text_fails_iff
    (img_w img_h : Z) (results : list Detection) :
  img_w <> 0%Z -> img_h <> 0%Z ->
  (get_structured_text img_w img_h results = None
   <-> Exists (fun d => fst (fst d) = []) results).
Proof.
  intros Hw Hh. induction results as [|[[bbox txt] conf] rest IH]; simpl.
  - split; [discriminate|]. intros H. inversion H.
  - rewrite Exists_cons. simpl.
    assert (Hrect : detection_rect img_w img_h bbox = None <-> bbox = []).
    { unfold detection_rect. destruct bbox as [|p ps]; simpl.
      - tauto.
      - destruct (Z.eqb_spec img_w 0); [congruence|].
        destruct (Z.eqb_spec img_h 0); [congruence|].
        simpl. split; discriminate. }
    destruct (detection_rect img_w img_h bbox) as [r|].
    + destruct (get_structured_text img_w img_h rest) as [sd|].
      * split; [discriminate|]. intros [H|H].
        -- apply Hrect in H. discriminate.
        -- apply IH in H. discriminate.
      * split; [|reflexivity]. intros _. right. now apply IH.
    + split; [|reflexivity]. intros _. left. now apply Hrect.
Qed.

Lemma get_structured_text_fails_iff_witness :
  get_structured_text 100 100 [point_detection; ([], "lost", 0.5%float)] = None
  <-> Exists (fun d : Detection => fst (fst d) = [])
        [point_detection; ([], "lost", 0.5%float)].
Proof.
  apply (get_structured_text_fails_iff 100 100
           [point_detection; ([], "lost", 0.5%float)]); discriminate.
Defined.

(** ** No element without a word *)

Lemma emit_chunk_has_word (row : list Box) (chunk : list string)
    (out out' : list Box) :
  words chunk -> Forall has_word out ->
  emit_chunk row chunk out = Some out' -> Forall has_word out'.
Proof.
  intros Hw Hall. unfold emit_chunk.
  destruct chunk as [|t rest] eqn:E; simpl is_nil; cbv iota.
  - intros H. now inversion H; subst.
  - rewrite <- E in *. destruct (union_rect row); [|discriminate].
    intros H. inversion H; subst out'. apply Forall_app. split; [exact Hall|].
    constructor; [|constructor]. unfold has_word. cbn [snd].
    destruct (50 <? _)%nat.
    + rewrite (split_join chunk true Hw). subst chunk. discriminate.
    + rewrite <- (string_app_empty_r (join " " chunk)).
      rewrite (split_join chunk false Hw). subst chunk. discriminate.
Qed.

Lemma take_chunk_words (gap_tokens : list string) (widths : list float)
    (total : float) (nrows i : nat) (token_start token_start' : Z)
    (chunk : list string) :
  words gap_tokens ->
  take_chunk gap_tokens widths total nrows i token_start
  = Some (chunk, token_start') ->
  words chunk.
Proof.
  intros Hw. unfold take_chunk. destruct (PrimFloat.eqb total 0).
  - intros H. now inversion H; subst.
  - destruct (py_round _); [|discriminate].
    destruct (Nat.eqb i (nrows - 1)); intros H; inversion H; subst.
    + now apply words_slice_from.
    + now apply words_slice.
Qed.

Lemma assign_loop_has_word (gap_tokens : list string) (widths : list float)
    (total : float) (nrows : nat) (rows : list (list Box)) :
  words gap_tokens ->
  forall (i : nat) (token_start : Z) (out out' : list Box),
    Forall has_word out ->
    assign_loop gap_tokens widths total nrows rows i token_start out = Some out' ->
    Forall has_word out'.
Proof.
  intros Hw. induction rows as [|row rest IH]; intros i ts out out' Hall H;
    simpl in H.
  - now inversion H; subst.
  - destruct (take_chunk _ _ _ _ _ _) as [[chunk ts']|] eqn:Htake; [|discriminate].
    destruct (emit_chunk row chunk out) as [out1|] eqn:Hemit; [|discriminate].
    eapply IH; [|exact H].
    eapply emit_chunk_has_word; [|exact Hall|exact Hemit].
    eapply take_chunk_words; eauto.
Qed.

Lemma fill_gap_has_word (gap_tokens : list string) (gap_boxes : list Box)
    (out out' : list Box) :
  words gap_tokens -> Forall has_word out ->
  fill_gap gap_tokens gap_boxes out = Some out' -> Forall has_word out'.
Proof.
  intros Hw Hall. unfold fill_gap.
  destruct gap_tokens as [|t toks] eqn:E; simpl is_nil; cbv iota.
  { intros H. now inversion H; subst. }
  rewrite <- E in *.
  destruct (negb (is_nil gap_boxes)).
  - destruct (row_widths _); [|discriminate].
    now apply assign_loop_has_word.
  - assert (Hnew : forall r, has_word (r, join " " gap_tokens)).
    { intros r. unfold has_word. cbn [snd].
      rewrite <- (string_app_empty_r (join " " gap_tokens)).
      rewrite (split_join gap_tokens false Hw). subst gap_tokens. discriminate. }
    destruct out as [|e0 out0]; intros H; injection H as <-.
    + constructor; [apply Hnew|constructor].
    + apply (proj2 (Forall_app has_word (e0 :: out0) [_])).
      split; [exact Hall|]. constructor; [apply Hnew|constructor].
Qed.

Lemma reconstruct_has_word (structured_data : list Box)
    (llm_tokens : list string) (matches : list Anchor) :
  words llm_tokens ->
  Forall (entry_ok llm_tokens) matches ->
  forall (prev_box_idx prev_llm_idx : Z) (out out' : list Box),
    Forall has_word out ->
    reconstruct structured_data llm_tokens matches prev_box_idx prev_llm_idx out
    = Some out' ->
    Forall has_word out'.
Proof.
  intros Hw Hok. induction Hok as [|a rest Ha _ IH]; intros pb pl out out' Hall H;
    simpl in H.
  - now inversion H; subst.
  - destruct (fill_gap _ _ out) as [out1|] eqn:Hfill; [|discriminate].
    assert (H1 : Forall has_word out1).
    { eapply fill_gap_has_word; [|exact Hall|exact Hfill].
      now apply words_slice. }
    eapply IH; [|exact H].
    destruct Ha as [(Hlen & Htext & r & Hrect)|(_ & Htext)].
    + rewrite Htext, Hrect. apply Forall_app. split; [exact H1|].
      constructor; [|constructor]. unfold has_word. cbn [snd].
      rewrite split_word; [discriminate|].
      unfold words in Hw. rewrite Forall_forall in Hw.
      apply Hw, nth_In. exact Hlen.
    + now rewrite Htext.
Qed.

(** X15: when the content has at least one token, every element of the
    result carries at least one word: [align_text] never emits an element
    with an empty or blank text. *)
Theorem result_elements_have_words (scorer : string -> string -> float)
    (structured_data : list Box) (llm_text : LlmText) (out : list Box) :
  split (full_text llm_text) <> [] ->
  align_text scorer structured_data llm_text = Some out ->
  Forall has_word out.
Proof.
  intros Hne H. unfold align_text in H.
  destruct (falsy llm_text) eqn:Hf.
  { apply falsy_no_token in Hf. congruence. }
  pose proof (split_words (full_text llm_text)) as Hw.
  remember (split (full_text llm_text)) as tokens eqn:Etok.
  fold (words tokens) in Hw.
  assert (Hnil : is_nil tokens = false) by (destruct tokens; [congruence|reflexivity]).
  rewrite Hnil in H.
  destruct (reconstruct _ _ _ _ _ _) as [final_output|] eqn:Hrec; [|discriminate].
  assert (Hall : Forall has_word final_output).
  { eapply (reconstruct_has_word structured_data tokens _ Hw); [| |exact Hrec].
    - destruct (find_anchors_inv scorer structured_data tokens) as (Hcur & Hok & _).
      fold (find_anchors scorer structured_data tokens) in Hok.
      apply Forall_app. split.
      + eapply Forall_impl; [|exact Hok].
        intros a (_ & Hllm & Htext & Hrect). left. repeat split; trivial. lia.
      + constructor; [|constructor]. right. now split.
    - constructor. }
  destruct (is_nil final_output && negb (is_nil structured_data)) eqn:Hfb.
  - apply andb_true_iff in Hfb. destruct Hfb as [Hfo Hsd].
    destruct structured_data as [|b sd] eqn:Esd; [discriminate|].
    rewrite <- Esd in Hrec.
    apply reconstruct_page_nonempty in Hrec; [|subst; discriminate|assumption].
    destruct final_output; [congruence|discriminate].
  - inversion H; subst. exact Hall.
Qed.

Lemma result_elements_have_words_witness :
  Forall has_word
    [(mkRect 0.1 0.1 0.3 0.2, "Hello");
     (mkRect 0.1 0.3 0.5 0.4, "big wide");
     (mkRect 0.1 0.5 0.3 0.6, "world")].
Proof.
  apply (result_elements_have_words fuzz_ratio gapped_page
           (LlmStr "Hello big wide world")).
  - discriminate.
  - reflexivity.
Defined.

(** ** A gap whose boxes lie on one line *)

(** X16: when the boxes of a gap form a single row and the gap has tokens,
    the gap gives exactly one element if it gives a result at all: the union
    rect of the gap boxes carrying all the gap tokens joined by single
    spaces, with a newline appended when that text is longer than 50
    characters. *)
Theorem single_row_gap (gap_tokens : list string) (gap_boxes : list Box)
    (out out' : list Box) :
  gap_tokens <> [] ->
  List.length (group_rows gap_boxes) = 1 ->
  fill_gap gap_tokens gap_boxes out = Some out' ->
  exists r,
    union_rect gap_boxes = Some r
    /\ out' = out ++ [(r, wrap_hint (join " " gap_tokens))].
Proof.
  intros Htok Hlen H.
  pose proof (group_rows_concat gap_boxes) as Hcat.
  destruct (group_rows gap_boxes) as [|row [|row' rows]] eqn:Erows;
    try discriminate.
  simpl in Hcat. rewrite app_nil_r in Hcat. subst row.
  assert (Hboxes : gap_boxes <> []).
  { intros E. subst gap_boxes. discriminate. }
  unfold fill_gap in H. rewrite Erows in H.
  assert (Hn1 : is_nil gap_tokens = false)
    by (destruct gap_tokens; [congruence|reflexivity]).
  assert (Hn2 : is_nil gap_boxes = false)
    by (destruct gap_boxes; [congruence|reflexivity]).
  rewrite Hn1, Hn2 in H. simpl negb in H. cbv iota in H.
  destruct (union_rect_some gap_boxes Hboxes) as [r Hr].
  exists r. split; [exact Hr|].
  destruct (row_widths [gap_boxes]) as [ws|]; [|discriminate].
  simpl in H.
  assert (Hchunk : forall chunk ts',
             take_chunk gap_tokens ws (total_width ws) 1 0 0 = Some (chunk, ts') ->
             chunk = gap_tokens).
  { intros chunk ts'. unfold take_chunk.
    destruct (PrimFloat.eqb (total_width ws) 0); [congruence|].
    destruct (py_round _); [|discriminate].
    simpl Nat.eqb. cbv iota. rewrite slice_from_0. congruence. }
  destruct (take_chunk gap_tokens ws (total_width ws) 1 0 0)
    as [[chunk ts']|] eqn:Htake; [|discriminate].
  rewrite (Hchunk chunk ts' eq_refl) in H.
  unfold emit_chunk in H. rewrite Hn1, Hr in H.
  now inversion H.
Qed.

Lemma single_row_gap_witness :
  exists r,
    union_rect [box_at 0.1 0.10 0.3 0.14 "a"; box_at 0.4 0.11 0.6 0.15 "b"] = Some r
    /\ [(mkRect 0.1 0.10 0.6 0.15, "one two three")]
       = [] ++ [(r, wrap_hint (join " " ["one"; "two"; "three"]))].
Proof.
  apply (single_row_gap ["one"; "two"; "three"]
           [box_at 0.1 0.10 0.3 0.14 "a"; box_at 0.4 0.11 0.6 0.15 "b"] []).
  - discriminate.
  - reflexivity.
  - reflexivity.
Defined.
